(** * UDPRIP router: a shallow embedding of [router.py] and its properties

    The development follows the structure of the source file: the link
    table ([LinkTable]), the routing table ([RoutingTable]) and the router
    proper (command interpreter, dispatcher, forwarder, periodic
    advertiser).

    Modelling conventions.
    - Python [int] is [Z]; addresses are [string]s; a Python [dict] keyed by
      addresses is a [gmap string _] and a Python [set] of addresses is a
      [gset string].  Equality of [gmap]s is extensional, as [==] on Python
      dictionaries is; insertion order is not represented (no property below
      depends on it).
    - A [for] loop over a dictionary is [map_fold] of the loop body; the
      lemmas [relax_all_lookup], [withdraw_all_lookup], [purge_hop_lookup]
      and [export_lookup] show that the result does not depend on the
      iteration order.
    - Every operation is modelled as executing atomically (the three
      threads of the source are not interleaved here).
    - [time.time()] is an explicit argument [now : Z]; [random.choice] takes
      its draw as an explicit argument; [json.dumps] and [int] are section
      variables.
    - A Python [str] is the [string] of its UTF-8 bytes; [str.split()]
      separates words at every Unicode white-space character. *)

From Stdlib Require Import ZArith String Ascii Lia.
From stdpp Require Import base option list gmap sets strings relations.

Local Open Scope string_scope.
Local Open Scope Z_scope.

(** ** Constants *)

Definition UDP_PORT : Z := 55151.
Definition INF : Z := 1000000.
Definition AGING_FACTOR : Z := 4.

(** ** Exceptions

    [result A] is the outcome of a computation that may raise. *)

Inductive exn := IndexError | ValueError | KeyError.

Inductive result (A : Type) :=
| Return (a : A)
| Raise (e : exn).
Arguments Return {A} a.
Arguments Raise {A} e.

(** ** Strings: [str.split()] and truthiness

    A Python [str] is represented by its UTF-8 encoding, as the string
    literals of this file are: an ASCII character is one byte, U+00A0 is the
    two bytes C2 A0, U+2003 the three bytes E2 80 83, and so on.  A byte
    that belongs to no well-formed UTF-8 sequence (a byte A0 on its own, for
    instance) encodes no character; it stands for the lone surrogate that
    [bytes.decode] with [surrogateescape] gives for it, which is no white
    space.  The white-space characters are encoded with the lead bytes C2,
    E1, E2 and E3 or are ASCII, so they are found by looking for their
    encodings, at any byte of the string. *)

(** The UTF-8 encoding of a code point. *)
Definition utf8 (cp : N) : string :=
  if (cp <? 0x80)%N then
    String (ascii_of_N cp) ""
  else if (cp <? 0x800)%N then
    String (ascii_of_N (0xC0 + cp / 0x40))
      (String (ascii_of_N (0x80 + cp mod 0x40)) "")
  else if (cp <? 0x10000)%N then
    String (ascii_of_N (0xE0 + cp / 0x1000))
      (String (ascii_of_N (0x80 + (cp / 0x40) mod 0x40))
         (String (ascii_of_N (0x80 + cp mod 0x40)) ""))
  else
    String (ascii_of_N (0xF0 + cp / 0x40000))
      (String (ascii_of_N (0x80 + (cp / 0x1000) mod 0x40))
         (String (ascii_of_N (0x80 + (cp / 0x40) mod 0x40))
            (String (ascii_of_N (0x80 + cp mod 0x40)) ""))).

(** The code points for which [str.isspace()] holds, the separators of
    [str.split()]: U+0009 to U+000D, U+001C to U+0020, U+0085, U+00A0,
    U+1680, U+2000 to U+200A, U+2028, U+2029, U+202F, U+205F and U+3000. *)
Definition whitespace : list N :=
  [0x09; 0x0A; 0x0B; 0x0C; 0x0D; 0x1C; 0x1D; 0x1E; 0x1F; 0x20; 0x85; 0xA0;
   0x1680; 0x2000; 0x2001; 0x2002; 0x2003; 0x2004; 0x2005; 0x2006; 0x2007;
   0x2008; 0x2009; 0x200A; 0x2028; 0x2029; 0x202F; 0x205F; 0x3000]%N.

Definition is_space (cp : N) : bool := bool_decide (cp ∈ whitespace).

(** The number of bytes of the white-space character that [s] starts with,
    0 when it starts with none. *)
Definition space_prefix (s : string) : nat :=
  match List.find (λ cp, String.prefix (utf8 cp) s) whitespace with
  | Some cp => String.length (utf8 cp)
  | None => 0
  end.

(** [split_from skip word s]: the words of [s], [word] being the word read
    so far and [skip] the number of bytes of [s] that still belong to the
    white-space character being read. *)
Fixpoint split_from (skip : nat) (word : string) (s : string) : list string :=
  match s with
  | EmptyString => if bool_decide (word = "") then [] else [word]
  | String c s' =>
      match skip with
      | S k => split_from k word s'
      | O =>
          match space_prefix s with
          | S k =>
              if bool_decide (word = "") then split_from k "" s'
              else word :: split_from k "" s'
          | O => split_from 0 (word +:+ String c "") s'
          end
      end
  end.

(** [cmd.split()] *)
Definition split (s : string) : list string := split_from 0 "" s.

(** [parts[i]] *)
Definition index (parts : list string) (i : nat) : result string :=
  match parts !! i with
  | Some x => Return x
  | None => Raise IndexError
  end.

(** [if nh:] on an [Optional[str]]: [None] and the empty string are false;
    [truthy nh] is the string when the test succeeds. *)
Definition truthy (o : option string) : option string :=
  match o with
  | Some s => if bool_decide (s = "") then None else Some s
  | None => None
  end.

(** ** Messages *)

(** The four message shapes of the wire format, plus [Other] for an object
    that carries some other ["type"]. *)
Inductive Msg :=
| Data (source destination payload : string)
| Update (source destination : string) (distances : gmap string Z)
| Trace (source destination : string) (routers : list string)
| Control (source destination reason : string) (original : Msg)
| Other (type source destination : string).

Definition mk_data (src dst payload : string) : Msg := Data src dst payload.
Definition mk_update (src dst : string) (distances : gmap string Z) : Msg :=
  Update src dst distances.
Definition mk_trace (src dst : string) (routers : list string) : Msg :=
  Trace src dst routers.
Definition mk_control (src dst reason : string) (original : Msg) : Msg :=
  Control src dst reason original.

(** [msg.get("type")], [msg["source"]], [msg["destination"]] *)
Definition msg_type (m : Msg) : string :=
  match m with
  | Data _ _ _ => "data"
  | Update _ _ _ => "update"
  | Trace _ _ _ => "trace"
  | Control _ _ _ _ => "control"
  | Other t _ _ => t
  end.

Definition msg_source (m : Msg) : string :=
  match m with
  | Data s _ _ | Update s _ _ | Trace s _ _ | Control s _ _ _ | Other _ s _ => s
  end.

Definition msg_destination (m : Msg) : string :=
  match m with
  | Data _ d _ | Update _ d _ | Trace _ d _ | Control _ d _ _ | Other _ _ d => d
  end.

(** [msg["payload"]], [msg["distances"]], [msg["routers"]],
    [msg["reason"]], [msg["original"]]: a missing key raises [KeyError]. *)
Definition msg_payload (m : Msg) : result string :=
  match m with Data _ _ p => Return p | _ => Raise KeyError end.
Definition msg_distances (m : Msg) : result (gmap string Z) :=
  match m with Update _ _ d => Return d | _ => Raise KeyError end.
Definition msg_routers (m : Msg) : result (list string) :=
  match m with Trace _ _ r => Return r | _ => Raise KeyError end.
Definition msg_reason (m : Msg) : result string :=
  match m with Control _ _ r _ => Return r | _ => Raise KeyError end.
Definition msg_original (m : Msg) : result Msg :=
  match m with Control _ _ _ o => Return o | _ => Raise KeyError end.

(** [msg["routers"].append(ip)] *)
Definition append_router (m : Msg) (ip : string) : result Msg :=
  match m with
  | Trace s d r => Return (Trace s d (r ++ [ip]))
  | _ => Raise KeyError
  end.

(** ** Link table *)

Module Neighbor.
Record t := mk { weight : Z; last_seen : Z }.
End Neighbor.

Module LinkTable.

Record t := mk { nbrs : gmap string Neighbor.t; aging : Z }.

Definition init (aging_seconds : Z) : t := mk ∅ aging_seconds.

Definition add (now : Z) (ip : string) (weight : Z) (lt : t) : t :=
    mk (<[ip := Neighbor.mk weight now]> (nbrs lt)) (aging lt).

Definition remove (ip : string) (lt : t) : t :=
    mk (delete ip (nbrs lt)) (aging lt).

Definition weight (lt : t) (ip : string) : option Z :=
    match nbrs lt !! ip with
    | Some n => Some (Neighbor.weight n)
    | None => None
    end.

Definition touch (now : Z) (ip : string) (lt : t) : t :=
    match nbrs lt !! ip with
    | Some n => mk (<[ip := Neighbor.mk (Neighbor.weight n) now]> (nbrs lt)) (aging lt)
    | None => lt
    end.

Definition is_dead (now : Z) (lt : t) (item : string * Neighbor.t) : bool :=
    now - Neighbor.last_seen item.2 >? aging lt.

Definition expire (now : Z) (lt : t) : list string * t :=
    let dead := (filter (λ item, is_dead now lt item = true) (map_to_list (nbrs lt))).*1 in
    (dead, foldl (λ acc ip, remove ip acc) lt dead).

Definition neighbors (lt : t) : list string := (map_to_list (nbrs lt)).*1.

End LinkTable.

(** ** Routing table *)

Module RoutingTable.

  (** [self._routes : Dict[str, tuple[int, set[str]]]] *)
  Abbreviation Route := (Z * gset string)%type.
  Abbreviation Routes := (gmap string (Z * gset string)).

  (** [__init__]: the table starts with the route to self. *)
Definition init (my_ip : string) : Routes := {[ my_ip := (0, {[ my_ip ]}) ]}.

  (** [random.choice(seq)]: [seq[i]] for a draw [i] below [len(seq)]; an
      empty sequence raises [IndexError] ([None] here). *)
Definition choice (draw : nat) (seq : list string) : option string :=
    seq !! (draw mod length seq)%nat.

Definition next_hop (draw : nat) (routes : Routes) (dst : string)
      : result (option string) :=
    match routes !! dst with
    | None => Return None
    | Some (dist, hops) =>
        match choice draw (elements hops) with
        | Some h => Return (Some h)
        | None => Raise IndexError
        end
    end.

Definition distance (routes : Routes) (dst : string) : option Z :=
    match routes !! dst with
    | Some e => Some e.1
    | None => None
    end.

  (** Body of the loop of [export]. *)
Definition export_one (to_neighbor : string) (d : string) (e : Route)
      (res : gmap string Z) : gmap string Z :=
    let '(cost, hops) := e in
    if bool_decide (to_neighbor ∉ hops) then <[d := cost]> res else res.

Definition export (routes : Routes) (to_neighbor : string) : gmap string Z :=
    map_fold (export_one to_neighbor) ∅ routes.

  (** Body of the first loop of [learn_neighbor_vector]. *)
Definition relax (nbr : string) (w_nbr : Z) (dst : string) (d_via_nbr : Z)
      (routes : Routes) : Routes :=
    let total := w_nbr + d_via_nbr in
    match routes !! dst with
    | None => <[dst := (total, {[ nbr ]})]> routes
    | Some (cost, hops) =>
        if total <? cost then <[dst := (total, {[ nbr ]})]> routes
        else if total =? cost then <[dst := (cost, hops ∪ {[ nbr ]})]> routes
        else routes
    end.

Definition relax_all (nbr : string) (w_nbr : Z) (vector : gmap string Z)
      (routes : Routes) : Routes :=
    map_fold (relax nbr w_nbr) routes vector.

  (** Body of the second loop of [learn_neighbor_vector]; [(cost, hops)] is
      the entry of the snapshot [list(self._routes.items())]. *)
Definition withdraw (nbr : string) (w_nbr : Z) (vector : gmap string Z)
      (dst : string) (e : Route) (routes : Routes) : Routes :=
    let '(cost, hops) := e in
    if bool_decide (nbr ∈ hops) then
      match vector !! dst with
      | Some d =>
          let new_cost := w_nbr + d in
          if new_cost >? cost then
            let hops' := hops ∖ {[ nbr ]} in
            if bool_decide (hops' = ∅) then delete dst routes
            else <[dst := (cost, hops')]> routes
          else routes
      | None => routes
      end
    else routes.

Definition withdraw_all (nbr : string) (w_nbr : Z) (vector : gmap string Z)
      (routes : Routes) : Routes :=
    map_fold (withdraw nbr w_nbr vector) routes routes.

Definition learn_neighbor_vector (nbr : string) (w_nbr : Z)
      (vector : gmap string Z) (routes : Routes) : Routes :=
    withdraw_all nbr w_nbr vector (relax_all nbr w_nbr vector routes).

  (** Body of the loop of [purge_hop]: the keys come from the snapshot, the
      entry is read from the live table. *)
Definition purge_one (broken_nh : string) (dst : string) (_ : Route)
      (routes : Routes) : Routes :=
    match routes !! dst with
    | Some (cost, hops) =>
        if bool_decide (broken_nh ∈ hops) then
          let hops' := hops ∖ {[ broken_nh ]} in
          if bool_decide (hops' = ∅) then delete dst routes
          else <[dst := (cost, hops')]> routes
        else routes
    | None => routes
    end.

Definition purge_hop (broken_nh : string) (routes : Routes) : Routes :=
    map_fold (purge_one broken_nh) routes routes.

Definition add_direct (neighbor_ip : string) (weight : Z) (routes : Routes)
      : Routes :=
    <[neighbor_ip := (weight, {[ neighbor_ip ]})]> routes.

  (** *** Entry-wise view of the loop bodies *)

Definition export_entry (to_neighbor : string) (e : Route) : option Z :=
    if bool_decide (to_neighbor ∉ e.2) then Some e.1 else None.

Definition relax_entry (nbr : string) (total : Z) (cur : option Route)
      : option Route :=
    match cur with
    | None => Some (total, {[ nbr ]})
    | Some (cost, hops) =>
        if total <? cost then Some (total, {[ nbr ]})
        else if total =? cost then Some (cost, hops ∪ {[ nbr ]})
        else Some (cost, hops)
    end.

Definition drop_hop (h : string) (e : Route) : option Route :=
    if bool_decide (e.2 ∖ {[ h ]} = ∅) then None else Some (e.1, e.2 ∖ {[ h ]}).

Definition withdraw_entry (nbr : string) (w_nbr : Z) (adv : option Z)
      (e : Route) : option Route :=
    match adv with
    | Some d =>
        if bool_decide (nbr ∈ e.2) && (w_nbr + d >? e.1) then drop_hop nbr e
        else Some e
    | None => Some e
    end.

Definition purge_entry (broken_nh : string) (e : Route) : option Route :=
    if bool_decide (broken_nh ∈ e.2) then drop_hop broken_nh e else Some e.

  (** *** Sequences of table operations *)

Inductive op :=
  | AddDirect (neighbor_ip : string) (weight : Z)
  | Learn (nbr : string) (w_nbr : Z) (vector : gmap string Z)
  | Purge (broken_nh : string).

Definition apply (o : op) (routes : Routes) : Routes :=
    match o with
    | AddDirect ip w => add_direct ip w routes
    | Learn nbr w vector => learn_neighbor_vector nbr w vector routes
    | Purge h => purge_hop h routes
    end.

Definition run (ops : list op) (routes : Routes) : Routes :=
    foldl (λ acc o, apply o acc) routes ops.

  (** *** Invariants of the data model *)

Definition hops_nonempty (routes : Routes) : Prop :=
    ∀ dst cost hops, routes !! dst = Some (cost, hops) → hops ≠ ∅.

Definition costs_ok (my_ip : string) (routes : Routes) : Prop :=
    ∀ dst cost hops, routes !! dst = Some (cost, hops) →
      0 ≤ cost ∧ (cost = 0 ↔ dst = my_ip).

  (** The empty string is a hop of no route but, possibly, the route to the
      node itself. *)
Definition empty_hop_only_self (my_ip : string) (routes : Routes) : Prop :=
    ∀ dst cost hops, routes !! dst = Some (cost, hops) → "" ∈ hops → dst = my_ip.

  (** The route to self is the initial one and the costs are as in
      [costs_ok]. *)
Definition self_route_ok (my_ip : string) (routes : Routes) : Prop :=
    routes !! my_ip = Some (0, {[ my_ip ]}) ∧ costs_ok my_ip routes.

  (** An operation that respects the data model: link weights are positive,
      advertised distances are non-negative, and the node is not its own
      neighbor. *)
Definition well_formed (my_ip : string) (o : op) : Prop :=
    match o with
    | AddDirect ip w => ip ≠ my_ip ∧ 0 < w
    | Learn nbr w vector =>
        nbr ≠ my_ip ∧ 0 < w ∧ map_Forall (λ _ d, 0 ≤ d) vector
    | Purge h => h ≠ my_ip
    end.

End RoutingTable.

(** ** The router *)

Record Router := mkRouter {
  my_ip : string;
  links : LinkTable.t;
  rt : RoutingTable.Routes;
  running : bool
}.

(** What a step of the router emits: datagrams handed to [sock.sendto] and
    lines printed on standard output. *)
Inductive Output :=
| OutSend (msg : Msg) (target_ip : string)
| OutLine (text : string)
| OutLinkAdded (ip : string) (w : Z)
| OutRoutes (routes : RoutingTable.Routes)
| OutControl (reason : string) (original : Msg).

(** [Router(my_ip, period)] *)
Definition new_router (my_ip : string) (period : Z) : Router :=
  mkRouter my_ip (LinkTable.init (AGING_FACTOR * period))
           (RoutingTable.init my_ip) true.

(** Methods of [Router] run in a monad that threads the router, collects
    the output and may raise; what was done before an exception stays
    done. *)
Definition M (A : Type) : Type := Router → result A * Router * list Output.

Definition ret {A} (a : A) : M A := λ r, (Return a, r, []).
Definition raise {A} (e : exn) : M A := λ r, (Raise e, r, []).
Definition lift {A} (x : result A) : M A := λ r, (x, r, []).
Definition bind {A B} (m : M A) (k : A → M B) : M B :=
  λ r, let first := m r in
       match first.1.1 with
       | Return a =>
           let second := k a first.1.2 in
           (second.1.1, second.1.2, (first.2 ++ second.2)%list)
       | Raise e => (Raise e, first.1.2, first.2)
       end.
Definition get : M Router := λ r, (Return r, r, []).
Definition set_links (l : LinkTable.t) : M unit :=
  λ r, (Return tt, mkRouter (my_ip r) l (rt r) (running r), []).
Definition set_rt (t : RoutingTable.Routes) : M unit :=
  λ r, (Return tt, mkRouter (my_ip r) (links r) t (running r), []).
Definition set_running (b : bool) : M unit :=
  λ r, (Return tt, mkRouter (my_ip r) (links r) (rt r) b, []).
Definition emit (o : Output) : M unit := λ r, (Return tt, r, [o]).

Notation "'let*' x := m 'in' k" := (bind m (λ x, k))
  (at level 10, x binder, m at level 100, k at level 200).
Notation "m ;;; k" := (bind m (λ _, k))
  (at level 100, k at level 200, right associativity).

(** Final state and output of a computation started in [r]. *)
Definition state_after {A} (m : M A) (r : Router) : Router := (m r).1.2.
Definition output_of {A} (m : M A) (r : Router) : list Output := (m r).2.

Definition usage_hint : string :=
  "Commands: add <ip> <w>, del <ip>, trace <ip>, quit".

Section Router.
  (** [json.dumps] on a message and [int] on a word ([None]: [ValueError]). *)
  Variable json_dumps : Msg → string.
  Variable int : string → option Z.

Definition parse_int (word : string) : result Z :=
    match int word with
    | Some w => Return w
    | None => Raise ValueError
    end.

Definition _send (msg : Msg) (target_ip : string) : M unit :=
    emit (OutSend msg target_ip).

Definition shutdown : M unit :=
    set_running false ;;;
    emit (OutLine "x router closed").

Definition _forward_or_notify (draws : nat * nat) (msg : Msg) : M unit :=
    let* r := get in
    let* nh := lift (RoutingTable.next_hop draws.1 (rt r) (msg_destination msg)) in
    match truthy nh with
    | Some nh => _send msg nh
    | None =>
        let ctrl := mk_control (my_ip r) (msg_source msg) "unreachable" msg in
        let* back := lift (RoutingTable.next_hop draws.2 (rt r) (msg_destination ctrl)) in
        match truthy back with
        | Some back => _send ctrl back
        | None => ret tt
        end
    end.

Definition _exec_cmd (draws : nat * nat) (now : Z) (cmd : string) : M unit :=
    if bool_decide (cmd = "") then ret tt else
    let parts := split cmd in
    let* p0 := lift (index parts 0) in
    if bool_decide (p0 = "add") && bool_decide (length parts = 3%nat) then
      let* ip := lift (index parts 1) in
      let* ws := lift (index parts 2) in
      let* w := lift (parse_int ws) in
      let* r := get in
      set_links (LinkTable.add now ip w (links r)) ;;;
      set_rt (RoutingTable.add_direct ip w (rt r)) ;;;
      emit (OutLinkAdded ip w)
    else if bool_decide (p0 = "del") && bool_decide (length parts = 2%nat) then
      let* ip := lift (index parts 1) in
      let* r := get in
      set_links (LinkTable.remove ip (links r)) ;;;
      set_rt (RoutingTable.purge_hop ip (rt r)) ;;;
      emit (OutLine ("- link " +:+ ip))
    else if bool_decide (p0 = "trace") && bool_decide (length parts = 2%nat) then
      let* dst := lift (index parts 1) in
      let* r := get in
      let t := mk_trace (my_ip r) dst [my_ip r] in
      _forward_or_notify draws t
    else if bool_decide (p0 = "quit") then
      shutdown
    else if bool_decide (p0 = "show") then
      let* r := get in
      emit (OutRoutes (rt r))
    else
      emit (OutLine usage_hint).

Definition _handle_update (now : Z) (msg : Msg) (src_ip : string) : M unit :=
    let* r := get in
    set_links (LinkTable.touch now src_ip (links r)) ;;;
    let* r := get in
    match LinkTable.weight (links r) src_ip with
    | Some w =>
        let* distances := lift (msg_distances msg) in
        set_rt (RoutingTable.learn_neighbor_vector src_ip w distances (rt r))
    | None => ret tt
    end.

Definition _handle_data (draws : nat * nat) (msg : Msg) : M unit :=
    let* r := get in
    if bool_decide (msg_destination msg = my_ip r) then
      let* payload := lift (msg_payload msg) in
      emit (OutLine payload)
    else _forward_or_notify draws msg.

Definition _handle_trace (draws : nat * nat) (msg : Msg) : M unit :=
    let* r := get in
    let* msg := lift (append_router msg (my_ip r)) in
    if bool_decide (msg_destination msg = my_ip r) then
      let reply := mk_data (my_ip r) (msg_source msg) (json_dumps msg) in
      _send reply (msg_source msg)
    else _forward_or_notify draws msg.

Definition _handle_control (draws : nat * nat) (msg : Msg) : M unit :=
    let* r := get in
    if bool_decide (msg_destination msg = my_ip r) then
      let* reason := lift (msg_reason msg) in
      let* original := lift (msg_original msg) in
      emit (OutControl reason original)
    else _forward_or_notify draws msg.

Definition _dispatch (draws : nat * nat) (now : Z) (msg : Msg)
      (src_ip : string) : M unit :=
    let t := msg_type msg in
    if bool_decide (t = "update") then _handle_update now msg src_ip
    else if bool_decide (t = "data") then _handle_data draws msg
    else if bool_decide (t = "trace") then _handle_trace draws msg
    else if bool_decide (t = "control") then _handle_control draws msg
    else ret tt.

  (** One iteration of [_update_loop], after the sleep. *)
Definition _update_tick (now : Z) : M unit :=
    let* r := get in
    let '(dead, links') := LinkTable.expire now (links r) in
    set_links links' ;;;
    set_rt (foldl (λ routes ip, RoutingTable.purge_hop ip routes) (rt r) dead) ;;;
    let* r := get in
    foldr (λ nbr rest,
             _send (mk_update (my_ip r) nbr (RoutingTable.export (rt r) nbr)) nbr ;;;
             rest)
          (ret tt) (LinkTable.neighbors (links r)).

  (** What the three loops of the router can do to it. *)
Inductive step (r : Router) : Router → Prop :=
  | step_cmd draws now cmd :
      step r (state_after (_exec_cmd draws now cmd) r)
  | step_recv draws now msg src_ip :
      step r (state_after (_dispatch draws now msg src_ip) r)
  | step_tick now :
      step r (state_after (_update_tick now) r).

Definition reachable (self : string) (period : Z) (r : Router) : Prop :=
    rtc step (new_router self period) r.

End Router.

(** ** Concrete [int] and [json.dumps] for the instances *)

Definition digit (c : ascii) : option Z :=
  let n := Z.of_nat (nat_of_ascii c) in
  if (48 <=? n) && (n <=? 57) then Some (n - 48) else None.

Fixpoint digits (acc : Z) (s : string) : option Z :=
  match s with
  | EmptyString => Some acc
  | String c s' =>
      match digit c with
      | Some d => digits (10 * acc + d) s'
      | None => None
      end
  end.

(** [int] on a word made of an optional sign and decimal digits. *)
Definition decimal (s : string) : option Z :=
  match s with
  | EmptyString => None
  | String c s' =>
      if bool_decide (s' = "") then digits 0 s
      else if Ascii.eqb c "-" then Z.opp <$> digits 0 s'
      else if Ascii.eqb c "+" then digits 0 s'
      else digits 0 s
  end.

(** A plain rendering of a message, standing for [json.dumps]. *)
Fixpoint render (m : Msg) : string :=
  match m with
  | Data s d p => "data " +:+ s +:+ " " +:+ d +:+ " " +:+ p
  | Update s d _ => "update " +:+ s +:+ " " +:+ d
  | Trace s d rs => "trace " +:+ s +:+ " " +:+ d +:+ " " +:+ String.concat "," rs
  | Control s d why o =>
      "control " +:+ s +:+ " " +:+ d +:+ " " +:+ why +:+ " (" +:+ render o +:+ ")"
  | Other t s d => t +:+ " " +:+ s +:+ " " +:+ d
  end.

(** ** Invariants of the router *)

(** The empty string is no neighbor, and it is a hop of no route but,
    possibly, the route to the node itself. *)
Definition addresses_ok (r : Router) : Prop :=
  LinkTable.nbrs (links r) !! "" = None ∧
  RoutingTable.empty_hop_only_self (my_ip r) (rt r).

Definition router_inv (self : string) (r : Router) : Prop :=
  my_ip r = self ∧ RoutingTable.hops_nonempty (rt r) ∧ addresses_ok r.

(** Every hop of every route is the node itself or a neighbor of the link
    table. *)
Definition hops_are_links (r : Router) : Prop :=
  ∀ dst cost hops h, rt r !! dst = Some (cost, hops) → h ∈ hops →
    h = my_ip r ∨ is_Some (LinkTable.nbrs (links r) !! h).

(** The ways in which a step of the router changes it. *)
Inductive move (r : Router) : Router → Prop :=
| move_running b :
    move r (mkRouter (my_ip r) (links r) (rt r) b)
| move_add now ip w :
    ip ≠ "" →
    move r (mkRouter (my_ip r) (LinkTable.add now ip w (links r))
                     (RoutingTable.add_direct ip w (rt r)) (running r))
| move_del ip :
    move r (mkRouter (my_ip r) (LinkTable.remove ip (links r))
                     (RoutingTable.purge_hop ip (rt r)) (running r))
| move_touch now ip :
    move r (mkRouter (my_ip r) (LinkTable.touch now ip (links r)) (rt r)
                     (running r))
| move_learn nbr w vector :
    LinkTable.weight (links r) nbr = Some w →
    move r (mkRouter (my_ip r) (links r)
                     (RoutingTable.learn_neighbor_vector nbr w vector (rt r))
                     (running r))
| move_expire now :
    move r (mkRouter (my_ip r) (LinkTable.expire now (links r)).2
                     (foldl (λ routes ip, RoutingTable.purge_hop ip routes) (rt r)
                            (LinkTable.expire now (links r)).1)
                     (running r)).

(** * Properties *)

(** ** A generic fact about dictionary loops

    A loop whose body, at key [i], only rewrites entry [i] of the
    accumulator (as a function [g] of the visited value and of the current
    entry) computes its result entry by entry. *)

Section map_fold_pointwise.
  Context {A B : Type}.
  Variable f : string → A → gmap string B → gmap string B.
  Variable g : string → A → option B → option B.
  Hypothesis f_local : ∀ i x r j,
    f i x r !! j = if decide (i = j) then g i x (r !! i) else r !! j.

Lemma map_fold_pointwise (b : gmap string B) (m : gmap string A) (j : string) :
    map_fold f b m !! j =
      match m !! j with Some x => g j x (b !! j) | None => b !! j end.
  Proof.
    revert j.
    apply (map_fold_weak_ind (λ r m, ∀ j,
      r !! j = match m !! j with Some x => g j x (b !! j) | None => b !! j end)).
    - intros j. by rewrite lookup_empty.
    - intros i x m' r Hi IH j. rewrite f_local.
      destruct (decide (i = j)) as [->|Hne].
      + rewrite lookup_insert_eq, IH, Hi. done.
      + rewrite lookup_insert_ne by done. apply IH.
  Qed.
End map_fold_pointwise.

(** ** The loops of the routing table, entry by entry *)

Section RoutingTableFacts.
  Import RoutingTable.
  Implicit Types (routes : gmap string (Z * gset string)) (vector : gmap string Z).
  Implicit Types (nbr dst : string) (hops : gset string).

Lemma relax_local nbr w_nbr dst d routes j :
    relax nbr w_nbr dst d routes !! j =
      if decide (dst = j) then relax_entry nbr (w_nbr + d) (routes !! dst)
      else routes !! j.
  Proof.
    unfold relax, relax_entry.
    destruct (routes !! dst) as [[cost hops]|] eqn:Hcur;
      repeat case_match; subst;
      rewrite ?lookup_insert_eq, ?lookup_insert_ne by done; done.
  Qed.

Lemma relax_all_lookup nbr w_nbr vector routes dst :
    relax_all nbr w_nbr vector routes !! dst =
      match vector !! dst with
      | Some d => relax_entry nbr (w_nbr + d) (routes !! dst)
      | None => routes !! dst
      end.
  Proof.
    unfold relax_all.
    apply (map_fold_pointwise _ (λ i d cur, relax_entry nbr (w_nbr + d) cur)).
    intros. apply relax_local.
  Qed.

Lemma withdraw_local nbr w_nbr vector dst e routes j :
    withdraw nbr w_nbr vector dst e routes !! j =
      if decide (dst = j) then
        match vector !! dst with
        | Some d =>
            if bool_decide (nbr ∈ e.2) && (w_nbr + d >? e.1) then drop_hop nbr e
            else routes !! dst
        | None => routes !! dst
        end
      else routes !! j.
  Proof.
    unfold withdraw, drop_hop. destruct e as [cost hops]. simpl.
    destruct (vector !! dst) as [d|]; repeat case_bool_decide; simpl;
      repeat case_match; simplify_eq/=;
      rewrite ?lookup_insert_eq, ?lookup_insert_ne, ?lookup_delete_eq,
        ?lookup_delete_ne by done; try done.
  Qed.

Lemma withdraw_all_lookup nbr w_nbr vector routes dst :
    withdraw_all nbr w_nbr vector routes !! dst =
      routes !! dst ≫= withdraw_entry nbr w_nbr (vector !! dst).
  Proof.
    unfold withdraw_all.
    rewrite (map_fold_pointwise _ (λ i e cur,
      match vector !! i with
      | Some d =>
          if bool_decide (nbr ∈ e.2) && (w_nbr + d >? e.1) then drop_hop nbr e
          else cur
      | None => cur
      end)) by (intros; apply withdraw_local).
    unfold withdraw_entry.
    destruct (routes !! dst) as [e|]; simpl; [|done].
    destruct (vector !! dst); [|done]. by case_match.
  Qed.

Lemma purge_local broken_nh dst e routes j :
    purge_one broken_nh dst e routes !! j =
      if decide (dst = j) then routes !! dst ≫= purge_entry broken_nh
      else routes !! j.
  Proof.
    unfold purge_one, purge_entry, drop_hop.
    destruct (routes !! dst) as [[cost hops]|] eqn:Hcur; simpl;
      repeat case_bool_decide; repeat case_match; simplify_eq/=;
      rewrite ?lookup_insert_eq, ?lookup_insert_ne, ?lookup_delete_eq,
        ?lookup_delete_ne by done; try done.
  Qed.

Lemma purge_hop_lookup broken_nh routes dst :
    purge_hop broken_nh routes !! dst = routes !! dst ≫= purge_entry broken_nh.
  Proof.
    unfold purge_hop.
    rewrite (map_fold_pointwise _ (λ i (_ : Z * gset string) cur,
      cur ≫= purge_entry broken_nh)) by (intros; apply purge_local).
    by destruct (routes !! dst).
  Qed.

Lemma export_local to_neighbor d e (res : gmap string Z) j :
    export_one to_neighbor d e res !! j =
      if decide (d = j) then
        match export_entry to_neighbor e with
        | Some c => Some c
        | None => res !! d
        end
      else res !! j.
  Proof.
    unfold export_one, export_entry. destruct e as [cost hops]. simpl.
    repeat case_bool_decide; repeat case_match; simplify_eq/=;
      rewrite ?lookup_insert_eq, ?lookup_insert_ne by done; done.
  Qed.

Lemma export_lookup routes to_neighbor dst :
    export routes to_neighbor !! dst =
      routes !! dst ≫= export_entry to_neighbor.
  Proof.
    unfold export.
    rewrite (map_fold_pointwise _ (λ i e cur,
      match export_entry to_neighbor e with
      | Some c => Some c
      | None => cur
      end)) by (intros; apply export_local).
    rewrite lookup_empty.
    destruct (routes !! dst) as [e|]; simpl; [|done]. by case_match.
  Qed.

Lemma learn_neighbor_vector_lookup nbr w_nbr vector routes dst :
    learn_neighbor_vector nbr w_nbr vector routes !! dst =
      match vector !! dst with
      | Some d =>
          relax_entry nbr (w_nbr + d) (routes !! dst)
            ≫= withdraw_entry nbr w_nbr (Some d)
      | None => routes !! dst
      end.
  Proof.
    unfold learn_neighbor_vector.
    rewrite withdraw_all_lookup, relax_all_lookup.
    destruct (vector !! dst); [done|]. by destruct (routes !! dst).
  Qed.

  (** The five cases of one advertised destination. *)
Lemma learn_entry_cases nbr w_nbr d (cur : option (Z * gset string)) :
    let total := w_nbr + d in
    relax_entry nbr total cur ≫= withdraw_entry nbr w_nbr (Some d) =
      match cur with
      | None => Some (total, {[ nbr ]})
      | Some (cost, hops) =>
          if decide (total < cost) then Some (total, {[ nbr ]})
          else if decide (total = cost) then Some (cost, hops ∪ {[ nbr ]})
          else if decide (nbr ∈ hops) then drop_hop nbr (cost, hops)
          else Some (cost, hops)
      end.
  Proof.
    unfold relax_entry, withdraw_entry. destruct cur as [[cost hops]|]; simpl.
    - repeat case_decide; repeat case_match; simpl in *;
        repeat case_bool_decide; simpl in *; repeat case_match;
        try done; try lia; set_solver.
    - case_bool_decide; simpl; [|set_solver]. case_match; [lia|done].
  Qed.

  (** ** C1 *)

  (** C1: [learn_neighbor_vector] is the two-phase update.  Phase one
      ([relax_all], the first loop) treats every advertised [(dst, d)] with
      [total = w_nbr + d]: a missing route is installed as [(total, {nbr})],
      a strictly better total replaces the route by [(total, {nbr})], an
      equal total adds [nbr] to the hop set, a worse total changes nothing;
      destinations that are not advertised are untouched.  Phase two (the
      second loop, on the table [mid] left by phase one) removes [nbr] from
      every route whose hop set contains [nbr], whose destination is
      advertised and for which [w_nbr + vector[dst]] is strictly greater
      than the stored cost, and deletes the entry when the hop set becomes
      empty; every other route is kept as it is. *)
Theorem learn_neighbor_vector_two_phase nbr w_nbr vector routes :
    let mid := relax_all nbr w_nbr vector routes in
    (∀ dst d, vector !! dst = Some d →
       let total := w_nbr + d in
       match routes !! dst with
       | None => mid !! dst = Some (total, {[ nbr ]})
       | Some (cost, hops) =>
           (total < cost → mid !! dst = Some (total, {[ nbr ]})) ∧
           (total = cost → mid !! dst = Some (cost, hops ∪ {[ nbr ]})) ∧
           (total > cost → mid !! dst = Some (cost, hops))
       end) ∧
    (∀ dst, vector !! dst = None → mid !! dst = routes !! dst) ∧
    (∀ dst cost hops, mid !! dst = Some (cost, hops) →
       (∀ d, nbr ∈ hops → vector !! dst = Some d → w_nbr + d > cost →
          learn_neighbor_vector nbr w_nbr vector routes !! dst =
            if decide (hops ∖ {[ nbr ]} = ∅) then None
            else Some (cost, hops ∖ {[ nbr ]})) ∧
       (nbr ∉ hops ∨ vector !! dst = None ∨
          (∃ d, vector !! dst = Some d ∧ w_nbr + d ≤ cost) →
          learn_neighbor_vector nbr w_nbr vector routes !! dst =
            Some (cost, hops))) ∧
    (∀ dst, mid !! dst = None →
       learn_neighbor_vector nbr w_nbr vector routes !! dst = None).
  Proof.
    intros mid. split; [|split; [|split]].
    - intros dst d Hd total. unfold mid. rewrite relax_all_lookup, Hd.
      unfold relax_entry. destruct (routes !! dst) as [[cost hops]|]; [|done].
      repeat split; intros; repeat case_match; try done; lia.
    - intros dst Hd. unfold mid. by rewrite relax_all_lookup, Hd.
    - intros dst cost hops Hmid. split.
      + intros d Hin Hd Hgt. unfold learn_neighbor_vector. fold mid.
        rewrite withdraw_all_lookup, Hmid, Hd. simpl.
        unfold withdraw_entry, drop_hop. simpl.
        rewrite bool_decide_true by done. simpl.
        destruct (w_nbr + d >? cost) eqn:Hcmp; [|lia].
        by case_bool_decide; case_decide.
      + intros Hkeep. unfold learn_neighbor_vector. fold mid.
        rewrite withdraw_all_lookup, Hmid. simpl. unfold withdraw_entry. simpl.
        destruct (vector !! dst) as [d|] eqn:Hd; [|done].
        destruct Hkeep as [Hnot|[?|(d' & ? & Hle)]]; simplify_eq.
        * by rewrite bool_decide_false.
        * destruct (w_nbr + d' >? cost) eqn:Hcmp; [lia|].
          by rewrite andb_false_r.
    - intros dst Hmid. unfold learn_neighbor_vector. fold mid.
      by rewrite withdraw_all_lookup, Hmid.
  Qed.

  (** ** C4 *)

  (** C4: [export(N)] is exactly the mapping [dst ↦ cost] over the routes
      whose hop set does not contain [N]; in particular a destination whose
      hop set contains [N] has no entry in it (split horizon). *)
Theorem export_split_horizon routes (N : string) :
    (∀ dst cost, export routes N !! dst = Some cost ↔
       ∃ hops, routes !! dst = Some (cost, hops) ∧ N ∉ hops) ∧
    (∀ dst cost hops, routes !! dst = Some (cost, hops) → N ∈ hops →
       export routes N !! dst = None).
  Proof.
    split.
    - intros dst cost. rewrite export_lookup. unfold export_entry.
      destruct (routes !! dst) as [[c hops]|]; simpl.
      + case_bool_decide; split.
        * intros [= ->]. eauto.
        * intros (? & [= -> ->] & _). done.
        * done.
        * intros (? & [= -> ->] & ?). done.
      + split; [done|]. by intros (? & ? & _).
    - intros dst cost hops Hr HN. rewrite export_lookup, Hr. simpl.
      unfold export_entry. simpl. by rewrite bool_decide_false by (intros ?; done).
  Qed.

  (** ** C10 *)

  (** A destination that has a route before and after one call of
      [learn_neighbor_vector] ends the call with a cost that is at most its
      cost before the call. *)
Theorem learn_neighbor_vector_cost_le nbr w_nbr vector routes dst
      cost hops cost' hops' :
    routes !! dst = Some (cost, hops) →
    learn_neighbor_vector nbr w_nbr vector routes !! dst = Some (cost', hops') →
    cost' ≤ cost.
  Proof.
    intros Hbefore. rewrite learn_neighbor_vector_lookup, Hbefore.
    destruct (vector !! dst) as [d|]; [|by intros [= -> _]].
    rewrite learn_entry_cases. unfold drop_hop. simpl.
    repeat case_decide; try case_bool_decide; intros [= <- _]; lia.
  Qed.

Lemma remove_only_hop (h : string) (hops : gset string) :
  h ∈ hops → hops ∖ {[ h ]} = ∅ → hops = {[ h ]}.
Proof.
  intros Hin Hempty. apply set_eq. intros x. rewrite elem_of_singleton.
  split; [|by intros ->].
  intros Hx. destruct (decide (x = h)) as [|Hne]; [done|].
  assert (x ∈ hops ∖ {[ h ]}) as Hx'
    by (apply elem_of_difference; split; [done|by rewrite elem_of_singleton]).
  rewrite Hempty in Hx'. by apply not_elem_of_empty in Hx'.
Qed.

  (** C10 (amended): what one call of [learn_neighbor_vector] does to a
      destination that has a route [(cost, hops)].  Either the route is left
      as it is; or the advertisement is strictly better and the route
      becomes [(w_nbr + d, {nbr})]; or it is as good and [nbr] joins the hop
      set at the same cost; or it is worse, [nbr] was a hop, and [nbr] is
      removed from the hop set at the same cost, the destination being
      deleted when [nbr] was the only hop.  In particular a route that
      survives ends the call with a cost that is at most its cost before
      the call: a stored cost is never raised. *)
Theorem learn_neighbor_vector_effect nbr w_nbr vector routes dst cost hops :
  routes !! dst = Some (cost, hops) →
  let after := learn_neighbor_vector nbr w_nbr vector routes !! dst in
  (after = Some (cost, hops) ∨
   (∃ d, vector !! dst = Some d ∧ w_nbr + d < cost ∧
         after = Some (w_nbr + d, {[ nbr ]})) ∨
   (∃ d, vector !! dst = Some d ∧ w_nbr + d = cost ∧
         after = Some (cost, hops ∪ {[ nbr ]})) ∨
   (∃ d, vector !! dst = Some d ∧ w_nbr + d > cost ∧ nbr ∈ hops ∧
         hops ∖ {[ nbr ]} ≠ ∅ ∧ after = Some (cost, hops ∖ {[ nbr ]})) ∨
   (∃ d, vector !! dst = Some d ∧ w_nbr + d > cost ∧ hops = {[ nbr ]} ∧
         after = None)) ∧
  (∀ cost' hops', after = Some (cost', hops') → cost' ≤ cost).
Proof.
  intros Hbefore after. split.
  - unfold after. rewrite learn_neighbor_vector_lookup, Hbefore.
    destruct (vector !! dst) as [d|] eqn:Hd; [|by left].
    rewrite learn_entry_cases. unfold drop_hop. simpl.
    destruct (decide (w_nbr + d < cost)) as [Hlt|Hge].
    { right. left. by exists d. }
    destruct (decide (w_nbr + d = cost)) as [Heq|Hne].
    { right. right. left. by exists d. }
    destruct (decide (nbr ∈ hops)) as [Hin|Hnin]; [|by left].
    assert (w_nbr + d > cost) as Hgt by lia.
    case_bool_decide as Hempty.
    + right. right. right. right. exists d.
      split; [done|]. split; [done|]. split; [|done].
      by apply remove_only_hop.
    + right. right. right. left. by exists d.
  - intros cost' hops' Hafter.
    by eapply learn_neighbor_vector_cost_le.
Qed.

  (** ** C5 *)

  (** A second identical advertisement changes nothing at a destination
      that the first one did not delete. *)
Lemma learn_entry_twice nbr w_nbr d (cur : option (Z * gset string)) e :
    relax_entry nbr (w_nbr + d) cur ≫= withdraw_entry nbr w_nbr (Some d) = Some e →
    relax_entry nbr (w_nbr + d) (Some e) ≫= withdraw_entry nbr w_nbr (Some d) = Some e.
  Proof.
    rewrite !learn_entry_cases. destruct e as [c' h']. unfold drop_hop.
    destruct cur as [[cost hops]|]; simpl;
      repeat case_decide; try case_bool_decide; intros [= <- <-];
      try lia; try done;
      try match goal with
          | H : ?x ∈ _ ∖ {[ ?x ]} |- _ =>
              apply elem_of_difference in H as [_ Hn];
              by rewrite elem_of_singleton in Hn
          end;
      f_equal; f_equal; apply set_eq; intros ?; set_unfold; tauto.
  Qed.

  (** C5 (amended): when the first call deletes no destination, that is,
      when no advertised destination has a route whose hop set is exactly
      [{nbr}] and whose stored cost is strictly less than
      [w_nbr + vector[dst]], a second call with the same neighbor, weight
      and vector leaves the table as the first call left it. *)
Theorem learn_neighbor_vector_twice nbr w_nbr vector routes :
    (∀ dst cost d, routes !! dst = Some (cost, {[ nbr ]}) →
       vector !! dst = Some d → w_nbr + d ≤ cost) →
    learn_neighbor_vector nbr w_nbr vector
      (learn_neighbor_vector nbr w_nbr vector routes) =
    learn_neighbor_vector nbr w_nbr vector routes.
  Proof.
    intros Hkeep. apply map_eq. intros dst.
    rewrite (learn_neighbor_vector_lookup _ _ _ (learn_neighbor_vector _ _ _ _)).
    destruct (vector !! dst) as [d|] eqn:Hd; [|done].
    rewrite learn_neighbor_vector_lookup, Hd.
    destruct (relax_entry nbr (w_nbr + d) (routes !! dst)
                ≫= withdraw_entry nbr w_nbr (Some d)) as [e|] eqn:Hone.
    { by apply learn_entry_twice in Hone. }
    exfalso. rewrite learn_entry_cases in Hone.
    destruct (routes !! dst) as [[cost hops]|] eqn:Hr; [|done].
    unfold drop_hop in Hone. simpl in Hone.
    destruct (decide (w_nbr + d < cost)); [done|].
    destruct (decide (w_nbr + d = cost)); [done|].
    destruct (decide (nbr ∈ hops)); [|done].
    destruct (decide (hops ∖ {[ nbr ]} = ∅)) as [Hempty|Hne];
      [|by rewrite bool_decide_false in Hone].
    assert (hops = {[ nbr ]}) as ->.
    { apply set_eq. intros x. rewrite elem_of_singleton. split; [|by intros ->].
      intros Hx. destruct (decide (x = nbr)) as [|Hxn]; [done|].
      assert (x ∈ hops ∖ {[ nbr ]}) as Hin
        by (apply elem_of_difference; split; [done|by rewrite elem_of_singleton]).
      rewrite Hempty in Hin. by apply not_elem_of_empty in Hin. }
    specialize (Hkeep _ _ _ Hr Hd). lia.
  Qed.

  (** ** Hop sets stay non-empty *)

Lemma drop_hop_nonempty h (e e' : Z * gset string) :
    drop_hop h e = Some e' → e'.2 ≠ ∅.
  Proof. unfold drop_hop. case_bool_decide; [done|]. by intros [= <-]. Qed.

Lemma drop_hop_cost h (e e' : Z * gset string) :
    drop_hop h e = Some e' → e'.1 = e.1.
  Proof. unfold drop_hop. case_bool_decide; [done|]. by intros [= <-]. Qed.

Lemma init_hops_nonempty my_ip : hops_nonempty (init my_ip).
  Proof.
    unfold init. intros dst cost hops [_ [= <- <-]]%lookup_singleton_Some.
    apply non_empty_singleton_L.
  Qed.

Lemma add_direct_hops_nonempty ip w routes :
    hops_nonempty routes → hops_nonempty (add_direct ip w routes).
  Proof.
    intros Hinv dst cost hops. unfold add_direct.
    rewrite lookup_insert. case_decide.
    - intros [= <- <-]. apply non_empty_singleton_L.
    - apply Hinv.
  Qed.

Lemma purge_hop_hops_nonempty h routes :
    hops_nonempty routes → hops_nonempty (purge_hop h routes).
  Proof.
    intros Hinv dst cost hops. rewrite purge_hop_lookup.
    destruct (routes !! dst) as [[c H]|] eqn:Hr; [|done]. simpl.
    unfold purge_entry. simpl. case_bool_decide.
    - intros Hd. by apply drop_hop_nonempty in Hd.
    - intros [= <- <-]. by eapply Hinv.
  Qed.

Lemma learn_neighbor_vector_hops_nonempty nbr w_nbr vector routes :
    hops_nonempty routes →
    hops_nonempty (learn_neighbor_vector nbr w_nbr vector routes).
  Proof.
    intros Hinv dst cost hops. rewrite learn_neighbor_vector_lookup.
    destruct (vector !! dst) as [d|]; [|apply Hinv].
    rewrite learn_entry_cases.
    destruct (routes !! dst) as [[c H]|] eqn:Hr.
    - repeat case_decide.
      + intros [= <- <-]. apply non_empty_singleton_L.
      + intros [= <- <-]. set_solver.
      + intros Hd. by apply drop_hop_nonempty in Hd.
      + intros [= <- <-]. by eapply Hinv.
    - intros [= <- <-]. apply non_empty_singleton_L.
  Qed.

Lemma apply_hops_nonempty o routes :
    hops_nonempty routes → hops_nonempty (apply o routes).
  Proof.
    destruct o; simpl;
      auto using add_direct_hops_nonempty, purge_hop_hops_nonempty,
        learn_neighbor_vector_hops_nonempty.
  Qed.

Lemma run_hops_nonempty ops routes :
    hops_nonempty routes → hops_nonempty (run ops routes).
  Proof.
    revert routes. induction ops as [|o ops IH]; intros routes Hinv; [done|].
    simpl. apply IH. by apply apply_hops_nonempty.
  Qed.

  (** ** C3 *)

Lemma init_self_route_ok my_ip : self_route_ok my_ip (init my_ip).
  Proof.
    unfold init. split; [apply lookup_singleton_eq|].
    intros dst cost hops [<- [= <- <-]]%lookup_singleton_Some. done.
  Qed.

Lemma apply_self_route_ok my_ip o routes :
    well_formed my_ip o → self_route_ok my_ip routes →
    self_route_ok my_ip (apply o routes).
  Proof.
    intros Hwf [Hself Hcosts]. destruct o as [ip w|nbr w vector|h]; simpl in *.
    - destruct Hwf as [Hip Hw]. unfold add_direct. split.
      + by rewrite lookup_insert_ne.
      + intros dst cost hops. rewrite lookup_insert. case_decide.
        * intros [= <- <-]. subst. split; [lia|]. split; [lia|done].
        * apply Hcosts.
    - destruct Hwf as (Hnbr & Hw & Hvec). split.
      + rewrite learn_neighbor_vector_lookup.
        destruct (vector !! my_ip) as [d|] eqn:Hd; [|done].
        specialize (Hvec _ _ Hd). simpl in Hvec.
        rewrite learn_entry_cases, Hself.
        rewrite !decide_False; [done|set_solver|lia|lia].
      + intros dst cost hops. rewrite learn_neighbor_vector_lookup.
        destruct (vector !! dst) as [d|] eqn:Hd; [|apply Hcosts].
        specialize (Hvec _ _ Hd). simpl in Hvec.
        rewrite learn_entry_cases.
        destruct (routes !! dst) as [[c H]|] eqn:Hr.
        * pose proof (Hcosts _ _ _ Hr) as [Hc Hiff].
          destruct (decide (w + d < c)) as [Hlt|Hge];
            [|destruct (decide (w + d = c)); [|case_decide]].
          -- intros [= <- <-]. split; [lia|]. split; [lia|].
             intros ->. assert (c = 0) by (by apply Hiff). lia.
          -- intros [= <- <-]. done.
          -- intros Hdrop. apply drop_hop_cost in Hdrop. simpl in Hdrop.
             by subst.
          -- intros [= <- <-]. done.
        * intros [= <- <-]. split; [lia|]. split; [lia|].
          intros ->. by rewrite Hself in Hr.
    - split.
      + rewrite purge_hop_lookup, Hself. simpl. unfold purge_entry. simpl.
        rewrite bool_decide_false; [done|set_solver].
      + intros dst cost hops. rewrite purge_hop_lookup.
        destruct (routes !! dst) as [[c H]|] eqn:Hr; [|done]. simpl.
        unfold purge_entry. simpl. case_bool_decide.
        * intros Hdrop. apply drop_hop_cost in Hdrop. simpl in Hdrop. subst.
          by eapply Hcosts.
        * intros [= <- <-]. by eapply Hcosts.
  Qed.

Lemma run_self_route_ok my_ip ops routes :
    Forall (well_formed my_ip) ops → self_route_ok my_ip routes →
    self_route_ok my_ip (run ops routes).
  Proof.
    intros Hops. revert routes.
    induction Hops as [|o ops Ho _ IH]; intros routes Hinv; [done|].
    simpl. apply IH. by apply apply_self_route_ok.
  Qed.

  (** C3 (amended): after every sequence of operations on the initial table
      in which every link weight is positive, every advertised distance is
      non-negative and no operation names the node's own address as the
      neighbor (the address of [add_direct], the sender of a learnt vector,
      the hop of [purge_hop]), every route's cost is non-negative, and a
      route has cost 0 if and only if its destination is the node's own
      address. *)
Theorem costs_ok_well_formed my_ip ops :
    Forall (well_formed my_ip) ops →
    costs_ok my_ip (run ops (init my_ip)).
  Proof.
    intros Hops. eapply run_self_route_ok; [done|apply init_self_route_ok].
  Qed.

  (** ** Concrete instances *)

(** Node [A] reaches [X] at cost 5 through [B] and through [C]; [B], a
    link of weight 1, now advertises [X] at distance 10.  The route
    survives at the same cost with [B] removed from its hop set: its cost is
    not lowered, no hop is added, and the destination is not deleted. *)
Lemma learn_neighbor_vector_effect_counterexample :
  let routes : gmap string (Z * gset string) :=
    <["X" := (5, {[ "B"; "C" ]})]> (init "A") in
  let after := learn_neighbor_vector "B" 1 {[ "X" := 10 ]} routes in
  routes !! "X" = Some (5, {[ "B"; "C" ]}) ∧
  after !! "X" = Some (5, {[ "C" ]}) ∧
  ¬ (5 < 5) ∧
  ({[ "C" ]} : gset string) ≠ {[ "B"; "C" ]} ∪ {[ "B" ]} ∧
  ({[ "C" ]} : gset string) ≠ {[ "B"; "C" ]}.
Proof.
  intros routes after.
  split; [reflexivity|]. split; [vm_compute; reflexivity|].
  split; [lia|].
  assert ("B" ∉ ({[ "C" ]} : gset string)) as Hnot
    by (intros Hin; apply elem_of_singleton in Hin; discriminate).
  split; intros Heq; apply Hnot; rewrite Heq.
  - apply elem_of_union. right. by apply elem_of_singleton.
  - apply elem_of_union. left. by apply elem_of_singleton.
Qed.

(** The same table and advertisement: the fourth case of the theorem. *)
Lemma learn_neighbor_vector_effect_witness :
  let routes : gmap string (Z * gset string) :=
    <["X" := (5, {[ "B"; "C" ]})]> (init "A") in
  let vector : gmap string Z := {[ "X" := 10 ]} in
  let hops : gset string := {[ "B"; "C" ]} in
  let after := learn_neighbor_vector "B" 1 vector routes !! "X" in
  routes !! "X" = Some (5, hops) ∧
  (after = Some (5, hops) ∨
   (∃ d, vector !! "X" = Some d ∧ 1 + d < 5 ∧
         after = Some (1 + d, {[ "B" ]})) ∨
   (∃ d, vector !! "X" = Some d ∧ 1 + d = 5 ∧
         after = Some (5, hops ∪ {[ "B" ]})) ∨
   (∃ d, vector !! "X" = Some d ∧ 1 + d > 5 ∧ "B" ∈ hops ∧
         hops ∖ {[ "B" ]} ≠ ∅ ∧ after = Some (5, hops ∖ {[ "B" ]})) ∨
   (∃ d, vector !! "X" = Some d ∧ 1 + d > 5 ∧ hops = {[ "B" ]} ∧
         after = None)) ∧
  (∀ cost' hops', after = Some (cost', hops') → cost' ≤ 5).
Proof.
  intros routes vector hops after.
  assert (routes !! "X" = Some (5, hops)) as Hbefore by reflexivity.
  split; [exact Hbefore|].
  exact (learn_neighbor_vector_effect "B" 1 vector routes "X" 5 hops Hbefore).
Defined.

(** [B] withdraws [X]: node [A] reaches [X] only through [B] at cost 5, and
    [B], a link of weight 1, now advertises [X] at distance 10.  The first
    call deletes the route to [X]; the second call, finding no route,
    installs [(11, {B})]. *)
Lemma learn_neighbor_vector_twice_counterexample :
  let routes : gmap string (Z * gset string) :=
    <["X" := (5, {[ "B" ]})]> (init "A") in
  let vector : gmap string Z := {[ "X" := 10 ]} in
  let once := learn_neighbor_vector "B" 1 vector routes in
  let twice := learn_neighbor_vector "B" 1 vector once in
  once !! "X" = None ∧ twice !! "X" = Some (11, {[ "B" ]}) ∧ twice ≠ once.
Proof.
  intros routes vector once twice.
  assert (once !! "X" = None) as Honce by (vm_compute; reflexivity).
  assert (twice !! "X" = Some (11, {[ "B" ]})) as Htwice
    by (vm_compute; reflexivity).
  split; [done|]. split; [done|].
  intros Heq. rewrite Heq, Honce in Htwice. discriminate.
Qed.

(** [X] is reached at cost 20 through [B], which advertises it at distance
    10 over a link of weight 1: the route is relaxed to [(11, {B})], and a
    second call changes nothing. *)
Lemma learn_neighbor_vector_twice_witness :
  let routes : gmap string (Z * gset string) :=
    <["X" := (20, {[ "B" ]})]> (init "A") in
  let vector : gmap string Z := {[ "X" := 10 ]} in
  (∀ dst cost d, routes !! dst = Some (cost, {[ "B" ]}) →
     vector !! dst = Some d → 1 + d ≤ cost) ∧
  learn_neighbor_vector "B" 1 vector
    (learn_neighbor_vector "B" 1 vector routes) =
  learn_neighbor_vector "B" 1 vector routes.
Proof.
  intros routes vector.
  assert (∀ dst cost d, routes !! dst = Some (cost, {[ "B" ]}) →
     vector !! dst = Some d → 1 + d ≤ cost) as Hkeep.
  { intros dst cost d Hr [<- <-]%lookup_singleton_Some.
    assert (routes !! "X" = Some (20, {[ "B" ]})) as Hx by reflexivity.
    rewrite Hx in Hr. injection Hr as <-. lia. }
  split; [exact Hkeep|].
  exact (learn_neighbor_vector_twice "B" 1 vector routes Hkeep).
Defined.

(** Four runs from the initial table of node [A] that break the cost
    invariant: the operator adds the node's own address as a link
    ([add A 5]), so the route to self costs 5; the operator adds a link of
    weight 0; a neighbor advertises a negative distance; and the operator
    deletes the node's own address, after which the route to self is learnt
    from a neighbor at a positive cost. *)
Lemma costs_ok_counterexample :
  ¬ costs_ok "A" (run [AddDirect "A" 5] (init "A")) ∧
  ¬ costs_ok "A" (run [AddDirect "B" 0] (init "A")) ∧
  ¬ costs_ok "A" (run [AddDirect "B" 1; Learn "B" 1 {[ "X" := -3 ]}] (init "A")) ∧
  ¬ costs_ok "A" (run [AddDirect "B" 1; Purge "A"; Learn "B" 1 {[ "A" := 1 ]}]
                      (init "A")).
Proof.
  repeat split.
  - intros Hinv.
    assert (run [AddDirect "A" 5] (init "A") !! "A" = Some (5, {[ "A" ]})) as Hr
      by (vm_compute; reflexivity).
    apply Hinv in Hr as [_ [_ Hr]]. by specialize (Hr eq_refl).
  - intros Hinv.
    assert (run [AddDirect "B" 0] (init "A") !! "B" = Some (0, {[ "B" ]})) as Hr
      by (vm_compute; reflexivity).
    apply Hinv in Hr as [_ [Hr _]]. by specialize (Hr eq_refl).
  - intros Hinv.
    assert (run [AddDirect "B" 1; Learn "B" 1 {[ "X" := -3 ]}] (init "A") !! "X"
              = Some (-2, {[ "B" ]})) as Hr by (vm_compute; reflexivity).
    apply Hinv in Hr as [Hr _]. lia.
  - intros Hinv.
    assert (run [AddDirect "B" 1; Purge "A"; Learn "B" 1 {[ "A" := 1 ]}]
              (init "A") !! "A" = Some (2, {[ "B" ]})) as Hr
      by (vm_compute; reflexivity).
    apply Hinv in Hr as [_ [_ Hr]]. by specialize (Hr eq_refl).
Qed.

(** The operator of node [A] adds the link [B] with weight 10, [B]
    advertises [X] at distance 3, then the operator deletes the link. *)
Lemma costs_ok_well_formed_witness :
  let ops := [AddDirect "B" 10; Learn "B" 10 {[ "X" := 3 ]}; Purge "B"] in
  Forall (well_formed "A") ops ∧ costs_ok "A" (run ops (init "A")).
Proof.
  intros ops.
  assert (Forall (well_formed "A") ops) as Hops.
  { repeat constructor; simpl; try done; try lia.
    intros dst d [<- <-]%lookup_singleton_Some. simpl. lia. }
  split; [exact Hops|].
  exact (costs_ok_well_formed "A" ops Hops).
Defined.

(** ** Where hops come from *)

Lemma init_empty_hop_only_self my_ip : empty_hop_only_self my_ip (init my_ip).
Proof.
  unfold init. by intros dst cost hops [<- _]%lookup_singleton_Some _.
Qed.

Lemma add_direct_empty_hop_only_self my_ip ip w routes :
  ip ≠ "" → empty_hop_only_self my_ip routes →
  empty_hop_only_self my_ip (add_direct ip w routes).
Proof.
  intros Hip Hinv dst cost hops. unfold add_direct.
  rewrite lookup_insert. case_decide; [|apply Hinv].
  intros [= <- <-] Hin. apply elem_of_singleton in Hin. by subst.
Qed.

Lemma purge_hop_empty_hop_only_self my_ip h routes :
  empty_hop_only_self my_ip routes →
  empty_hop_only_self my_ip (purge_hop h routes).
Proof.
  intros Hinv dst cost hops. rewrite purge_hop_lookup.
  destruct (routes !! dst) as [[c H]|] eqn:Hr; [|done]. simpl.
  unfold purge_entry, drop_hop. simpl. repeat case_bool_decide; try done.
  - intros [= <- <-] [Hin _]%elem_of_difference. by eapply Hinv.
  - intros [= <- <-] Hin. by eapply Hinv.
Qed.

Lemma learn_neighbor_vector_empty_hop_only_self my_ip nbr w_nbr vector routes :
  nbr ≠ "" → empty_hop_only_self my_ip routes →
  empty_hop_only_self my_ip (learn_neighbor_vector nbr w_nbr vector routes).
Proof.
  intros Hnbr Hinv dst cost hops. rewrite learn_neighbor_vector_lookup.
  destruct (vector !! dst) as [d|]; [|apply Hinv].
  rewrite learn_entry_cases.
  destruct (routes !! dst) as [[c H]|] eqn:Hr.
  - unfold drop_hop. simpl. repeat case_decide; try case_bool_decide; try done.
    + intros [= <- <-] Hin. apply elem_of_singleton in Hin. by subst.
    + intros [= <- <-] [Hin|Hin]%elem_of_union; [by eapply Hinv|].
      apply elem_of_singleton in Hin. by subst.
    + intros [= <- <-] [Hin _]%elem_of_difference. by eapply Hinv.
    + intros [= <- <-] Hin. by eapply Hinv.
  - intros [= <- <-] Hin. apply elem_of_singleton in Hin. by subst.
Qed.

Lemma purge_all_hops_nonempty dead routes :
  hops_nonempty routes →
  hops_nonempty (foldl (λ acc ip, purge_hop ip acc) routes dead).
Proof.
  revert routes. induction dead as [|ip dead IH]; intros routes Hinv; [done|].
  simpl. by apply IH, purge_hop_hops_nonempty.
Qed.

Lemma purge_all_empty_hop_only_self my_ip dead routes :
  empty_hop_only_self my_ip routes →
  empty_hop_only_self my_ip (foldl (λ acc ip, purge_hop ip acc) routes dead).
Proof.
  revert routes. induction dead as [|ip dead IH]; intros routes Hinv; [done|].
  simpl. by apply IH, purge_hop_empty_hop_only_self.
Qed.

Lemma choice_elem draw hops :
  hops ≠ ∅ → ∃ h, choice draw (elements hops) = Some h ∧ h ∈ hops.
Proof.
  intros Hne. unfold choice.
  assert (length (elements hops) ≠ 0%nat) as Hlen.
  { intros Hl. apply Hne. apply leibniz_equiv, elements_empty_iff.
    by apply length_zero_iff_nil. }
  destruct (lookup_lt_is_Some_2 (elements hops)
              (draw mod length (elements hops))%nat) as [h Hh].
  { by apply Nat.mod_upper_bound. }
  exists h. split; [done|]. apply elem_of_elements.
  by eapply list_elem_of_lookup_2.
Qed.

End RoutingTableFacts.

(** ** The router *)

Section RouterFacts.
Variable json_dumps : Msg → string.
Variable int : string → option Z.

Implicit Types (r : Router) (m msg : Msg) (draws : nat * nat).

Lemma router_eta r : mkRouter (my_ip r) (links r) (rt r) (running r) = r.
Proof. by destruct r. Qed.

Lemma M_eta {A} (x : result A * Router * list Output) : (x.1.1, x.1.2, x.2) = x.
Proof. by destruct x as [[? ?] ?]. Qed.

(** ** C7 *)

(** C7: when an update arrives from an address that is not in the link
    table, [touch] leaves the link table as it is, the weight lookup is
    absent, and the dispatcher returns with both tables unchanged, nothing
    sent and nothing raised (so the vector was not even read). *)
Theorem update_from_non_neighbor draws now msg src_ip r :
  LinkTable.nbrs (links r) !! src_ip = None →
  msg_type msg = "update" →
  LinkTable.touch now src_ip (links r) = links r ∧
  LinkTable.weight (links r) src_ip = None ∧
  _dispatch json_dumps draws now msg src_ip r = (Return tt, r, []).
Proof.
  intros Hnone Htype.
  assert (LinkTable.touch now src_ip (links r) = links r) as Htouch
    by (unfold LinkTable.touch; by rewrite Hnone).
  assert (LinkTable.weight (links r) src_ip = None) as Hweight
    by (unfold LinkTable.weight; by rewrite Hnone).
  split; [done|]. split; [done|].
  unfold _dispatch. rewrite Htype. simpl.
  unfold _handle_update, bind, get, set_links. simpl.
  rewrite Htouch, Hweight. simpl. by rewrite router_eta.
Qed.

(** ** C8 *)


(** ** C9 *)

Lemma usage_hint_one_line : String.index 0 (String "010" "") usage_hint = None.
Proof. reflexivity. Qed.

Lemma exec_cmd_empty draws now r :
  _exec_cmd int draws now "" r = (Return tt, r, []).
Proof. reflexivity. Qed.

Lemma exec_cmd_show draws now cmd args r :
  split cmd = "show" :: args →
  _exec_cmd int draws now cmd r = (Return tt, r, [OutRoutes (rt r)]).
Proof.
  intros Hparts. unfold _exec_cmd.
  rewrite bool_decide_false by (by intros ->).
  rewrite Hparts. unfold bind, lift, get, emit. simpl. done.
Qed.

(** An [add] with two arguments whose weight is not an integer raises
    [ValueError] out of the command interpreter; the tables are unchanged
    and nothing is printed. *)
Lemma exec_cmd_add_bad_weight draws now cmd ip ws r :
  split cmd = ["add"; ip; ws] → int ws = None →
  _exec_cmd int draws now cmd r = (Raise ValueError, r, []).
Proof.
  intros Hparts Hint. unfold _exec_cmd.
  rewrite bool_decide_false by (by intros ->).
  rewrite Hparts. unfold bind, lift, get, emit, parse_int. simpl.
  by rewrite Hint.
Qed.

(** C9 (amended): a line that has a first word, that word being neither
    [quit] nor [show], and that is not an [add] with two arguments, a [del]
    with one argument or a [trace] with one argument, prints the usage hint
    (one line) and changes neither the link table nor the routing table. *)
Theorem exec_cmd_usage draws now cmd p0 r :
  split cmd !! 0%nat = Some p0 →
  ¬ (p0 = "add" ∧ length (split cmd) = 3%nat) →
  ¬ (p0 = "del" ∧ length (split cmd) = 2%nat) →
  ¬ (p0 = "trace" ∧ length (split cmd) = 2%nat) →
  p0 ≠ "quit" → p0 ≠ "show" →
  _exec_cmd int draws now cmd r = (Return tt, r, [OutLine usage_hint]) ∧
  String.index 0 (String "010" "") usage_hint = None.
Proof.
  intros Hp0 Hadd Hdel Htrace Hquit Hshow. split; [|reflexivity].
  unfold _exec_cmd.
  rewrite bool_decide_false by (intros ->; done).
  unfold bind at 1. unfold lift at 1, index at 1. rewrite Hp0. simpl.
  rewrite (bool_decide_false (p0 = "quit")), (bool_decide_false (p0 = "show"))
    by done.
  destruct (bool_decide (p0 = "add") && bool_decide (length (split cmd) = 3%nat))
    eqn:Ha.
  { apply andb_true_iff in Ha as [?%bool_decide_eq_true ?%bool_decide_eq_true].
    by destruct Hadd. }
  destruct (bool_decide (p0 = "del") && bool_decide (length (split cmd) = 2%nat))
    eqn:Hd.
  { apply andb_true_iff in Hd as [?%bool_decide_eq_true ?%bool_decide_eq_true].
    by destruct Hdel. }
  destruct (bool_decide (p0 = "trace") && bool_decide (length (split cmd) = 2%nat))
    eqn:Ht.
  { apply andb_true_iff in Ht as [?%bool_decide_eq_true ?%bool_decide_eq_true].
    by destruct Htrace. }
  reflexivity.
Qed.

(** ** Reachable states *)

Lemma split_from_nonempty skip word s x :
  x ∈ split_from skip word s → x ≠ "".
Proof.
  revert skip word. induction s as [|c s IH]; intros skip word; simpl.
  - case_bool_decide; [by intros ?%elem_of_nil|].
    by intros ->%list_elem_of_singleton.
  - destruct skip as [|k]; [|apply IH].
    destruct (space_prefix (String c s)) as [|k]; [apply IH|].
    case_bool_decide; [apply IH|].
    intros [->|?]%elem_of_cons; [done|by eapply IH].
Qed.

Lemma split_nonempty cmd x : x ∈ split cmd → x ≠ "".
Proof. apply split_from_nonempty. Qed.

Lemma index_elem parts i x : index parts i = Return x → x ∈ parts.
Proof.
  unfold index. destruct (parts !! i) eqn:Hi; [|done].
  intros [= <-]. by eapply list_elem_of_lookup_2.
Qed.

Lemma forward_or_notify_state draws m r :
  state_after (_forward_or_notify draws m) r = r.
Proof.
  unfold _forward_or_notify, state_after, bind, get, lift, _send, emit, ret.
  simpl. repeat (case_match; simpl; try done).
Qed.

Lemma exec_cmd_move draws now cmd r :
  state_after (_exec_cmd int draws now cmd) r = r ∨
  move r (state_after (_exec_cmd int draws now cmd) r).
Proof.
  unfold _exec_cmd. case_bool_decide; [by left|].
  unfold state_after, bind at 1. unfold lift at 1.
  destruct (index (split cmd) 0) as [p0|] eqn:Hp0; simpl; [|by left].
  repeat case_match; simpl.
  - unfold bind at 1. unfold lift at 1.
    destruct (index (split cmd) 1) as [ip|] eqn:Hip; simpl; [|by left].
    unfold bind at 1. unfold lift at 1.
    destruct (index (split cmd) 2) as [ws|] eqn:Hws; simpl; [|by left].
    unfold bind at 1. unfold lift at 1, parse_int.
    destruct (int ws) as [w|]; simpl; [|by left].
    right. apply move_add. eapply split_nonempty, index_elem. done.
  - unfold bind at 1. unfold lift at 1.
    destruct (index (split cmd) 1) as [ip|] eqn:Hip; simpl; [|by left].
    right. apply move_del.
  - unfold bind at 1. unfold lift at 1.
    destruct (index (split cmd) 1) as [dst|] eqn:Hdst; simpl; [|by left].
    left. exact (forward_or_notify_state draws (mk_trace (my_ip r) dst [my_ip r]) r).
  - right. apply move_running.
  - by left.
  - by left.
Qed.

(** The forwarder leaves the router as it is: closes [rtc move r x] when [x]
    is the state after forwarding [m]. *)
Ltac forwarded draws m r :=
  match goal with
  | |- rtc move r ?x =>
      replace x with r
        by (symmetry; exact (forward_or_notify_state draws m r));
      done
  end.

Lemma handle_update_move now msg src_ip r :
  rtc move r (state_after (_handle_update now msg src_ip) r).
Proof.
  unfold _handle_update, state_after, bind, get, set_links, set_rt, lift, ret.
  simpl.
  eapply rtc_l; [apply (move_touch r now src_ip)|].
  destruct (LinkTable.weight (LinkTable.touch now src_ip (links r)) src_ip)
    as [w|] eqn:Hw; simpl; [|done].
  destruct (msg_distances msg) as [distances|]; simpl; [|done].
  apply rtc_once.
  exact (move_learn (mkRouter _ _ _ _) src_ip w distances Hw).
Qed.

Lemma dispatch_move draws now msg src_ip r :
  rtc move r (state_after (_dispatch json_dumps draws now msg src_ip) r).
Proof.
  unfold _dispatch. repeat case_bool_decide.
  - apply handle_update_move.
  - unfold _handle_data, state_after, bind at 1, get. simpl.
    case_bool_decide.
    + unfold bind, lift, emit. simpl. by destruct (msg_payload msg).
    + forwarded draws msg r.
  - unfold _handle_trace, state_after, bind at 1, get. simpl.
    unfold bind at 1, lift at 1.
    destruct (append_router msg (my_ip r)) as [msg'|]; simpl; [|done].
    case_bool_decide; [done|].
    forwarded draws msg' r.
  - unfold _handle_control, state_after, bind at 1, get. simpl.
    case_bool_decide.
    + unfold bind, lift, emit. simpl.
      destruct (msg_reason msg); simpl; [|done].
      by destruct (msg_original msg).
    + forwarded draws msg r.
  - done.
Qed.

Lemma send_all_state (f : string → Msg) (l : list string) r :
  state_after (foldr (λ nbr rest, _send (f nbr) nbr ;;; rest) (ret tt) l) r = r.
Proof.
  induction l as [|nbr l IH]; [done|].
  simpl. unfold state_after, bind, _send, emit in *. simpl. apply IH.
Qed.

Lemma update_tick_move now r :
  move r (state_after (_update_tick now) r).
Proof.
  unfold _update_tick, state_after, bind at 1, get. simpl.
  match goal with
  | |- move r (?m ?r0).1.2 => change ((m r0).1.2) with (state_after m r0)
  end.
  rewrite send_all_state. exact (move_expire r now).
Qed.

Lemma remove_all_lookup_None (dead : list string) (lt : LinkTable.t) ip :
  LinkTable.nbrs lt !! ip = None →
  LinkTable.nbrs (foldl (λ acc ip, LinkTable.remove ip acc) lt dead) !! ip = None.
Proof.
  revert lt. induction dead as [|d dead IH]; intros lt Hnone; [done|].
  simpl. apply IH. simpl. rewrite lookup_delete. by case_decide.
Qed.

Lemma weight_Some_nbrs (lt : LinkTable.t) ip w :
  LinkTable.weight lt ip = Some w → is_Some (LinkTable.nbrs lt !! ip).
Proof. unfold LinkTable.weight. by destruct (LinkTable.nbrs lt !! ip). Qed.

Lemma move_inv self r r' : move r r' → router_inv self r → router_inv self r'.
Proof.
  intros Hmove (Hself & Hhops & Hnbrs & Hempty).
  destruct Hmove as [b|now ip w Hip|ip|now ip|nbr w vector Hw|now];
    (split; [done|]); unfold addresses_ok; simpl.
  - done.
  - split; [by apply add_direct_hops_nonempty|]. split.
    + by rewrite lookup_insert_ne.
    + by apply add_direct_empty_hop_only_self.
  - split; [by apply purge_hop_hops_nonempty|]. split.
    + rewrite lookup_delete. by case_decide.
    + by apply purge_hop_empty_hop_only_self.
  - split; [done|]. split; [|done].
    unfold LinkTable.touch.
    destruct (LinkTable.nbrs (links r) !! ip) eqn:Hip; [|done]. simpl.
    rewrite lookup_insert_ne; [done|]. intros ->. by rewrite Hnbrs in Hip.
  - split; [by apply learn_neighbor_vector_hops_nonempty|]. split; [done|].
    apply learn_neighbor_vector_empty_hop_only_self; [|done].
    intros ->. apply weight_Some_nbrs in Hw as [? Hw]. by rewrite Hnbrs in Hw.
  - split; [by apply purge_all_hops_nonempty|]. split.
    + by apply remove_all_lookup_None.
    + by apply purge_all_empty_hop_only_self.
Qed.

Lemma rtc_move_inv self r r' :
  rtc move r r' → router_inv self r → router_inv self r'.
Proof. induction 1; eauto using move_inv. Qed.

Lemma step_inv self r r' :
  step json_dumps int r r' → router_inv self r → router_inv self r'.
Proof.
  intros [draws now cmd|draws now msg src_ip|now] Hinv.
  - destruct (exec_cmd_move draws now cmd r) as [->|Hmove]; [done|].
    by eapply move_inv.
  - eapply rtc_move_inv; [apply dispatch_move|done].
  - eapply move_inv; [apply update_tick_move|done].
Qed.

Lemma new_router_inv self period : router_inv self (new_router self period).
Proof.
  split; [done|]. split; [apply init_hops_nonempty|]. split; [done|].
  apply init_empty_hop_only_self.
Qed.

Lemma reachable_inv self period r :
  reachable json_dumps int self period r → router_inv self r.
Proof.
  unfold reachable. revert r.
  apply (rtc_ind_r (router_inv self)); [apply new_router_inv|].
  intros r r' _ Hstep Hinv. by eapply step_inv.
Qed.

(** ** C6 *)


Lemma next_hop_absent draw (routes : gmap string (Z * gset string)) dst :
  routes !! dst = None → RoutingTable.next_hop draw routes dst = Return None.
Proof. intros Hr. unfold RoutingTable.next_hop. by rewrite Hr. Qed.


(** ** C2 *)

(** C2: every operation of the routing table ([add_direct],
    [learn_neighbor_vector], [purge_hop]) keeps all hop sets non-empty: an
    operation that empties a hop set deletes the entry.  So every route has
    a non-empty hop set after any sequence of operations on the initial
    table, and in every state the router reaches through operator commands
    ([add], [del], ...), received messages and advertisement ticks. *)
Theorem hop_sets_never_empty :
  (∀ o routes, RoutingTable.hops_nonempty routes →
     RoutingTable.hops_nonempty (RoutingTable.apply o routes)) ∧
  (∀ my_ip ops,
     RoutingTable.hops_nonempty (RoutingTable.run ops (RoutingTable.init my_ip))) ∧
  (∀ self period r, reachable json_dumps int self period r →
     RoutingTable.hops_nonempty (rt r)).
Proof.
  split; [|split].
  - apply apply_hops_nonempty.
  - intros my_ip ops. apply run_hops_nonempty, init_hops_nonempty.
  - by intros self period r (_ & Hhops & _)%reachable_inv.
Qed.

End RouterFacts.

(** ** Concrete instances for the router *)


(** Node [A] has no link yet when an update arrives from [B]. *)
Lemma update_from_non_neighbor_witness :
  let r := new_router "A" 5 in
  let msg := Update "B" "A" {[ "X" := 3 ]} in
  LinkTable.nbrs (links r) !! "B" = None ∧
  msg_type msg = "update" ∧
  LinkTable.touch 7 "B" (links r) = links r ∧
  LinkTable.weight (links r) "B" = None ∧
  _dispatch render (0%nat, 0%nat) 7 msg "B" r = (Return tt, r, []).
Proof.
  intros r msg.
  assert (LinkTable.nbrs (links r) !! "B" = None) as Hnone by reflexivity.
  assert (msg_type msg = "update") as Htype by reflexivity.
  split; [exact Hnone|]. split; [exact Htype|].
  exact (update_from_non_neighbor render (0%nat, 0%nat) 7 msg "B" r Hnone Htype).
Defined.

(** The line [add B] lacks the weight. *)
Lemma exec_cmd_usage_witness :
  let r := new_router "A" 5 in
  let cmd := "add B" in
  split cmd !! 0%nat = Some "add" ∧
  ¬ ("add" = "add" ∧ length (split cmd) = 3%nat) ∧
  ¬ ("add" = "del" ∧ length (split cmd) = 2%nat) ∧
  ¬ ("add" = "trace" ∧ length (split cmd) = 2%nat) ∧
  "add" ≠ "quit" ∧ "add" ≠ "show" ∧
  _exec_cmd decimal (0%nat, 0%nat) 0 cmd r = (Return tt, r, [OutLine usage_hint]) ∧
  String.index 0 (String "010" "") usage_hint = None.
Proof.
  intros r cmd.
  assert (split cmd !! 0%nat = Some "add") as Hp0 by reflexivity.
  assert (¬ ("add" = "add" ∧ length (split cmd) = 3%nat)) as Hadd
    by (intros [_ Hlen]; vm_compute in Hlen; discriminate).
  assert (¬ ("add" = "del" ∧ length (split cmd) = 2%nat)) as Hdel
    by (intros [Hw _]; discriminate).
  assert (¬ ("add" = "trace" ∧ length (split cmd) = 2%nat)) as Htrace
    by (intros [Hw _]; discriminate).
  assert ("add" ≠ "quit") as Hquit by discriminate.
  assert ("add" ≠ "show") as Hshow by discriminate.
  repeat (split; [assumption|]).
  exact (exec_cmd_usage decimal (0%nat, 0%nat) 0 cmd "add" r
           Hp0 Hadd Hdel Htrace Hquit Hshow).
Defined.

(** Two lines that are no [add], [del], [trace] or [quit] command and do
    not print the usage hint: the empty line prints nothing, and [show]
    prints the routing table. *)
Lemma exec_cmd_usage_counterexample :
  let r := new_router "A" 5 in
  split "" = [] ∧ split "show" = ["show"] ∧
  _exec_cmd decimal (0%nat, 0%nat) 0 "" r = (Return tt, r, []) ∧
  _exec_cmd decimal (0%nat, 0%nat) 0 "show" r = (Return tt, r, [OutRoutes (rt r)]) ∧
  output_of (_exec_cmd decimal (0%nat, 0%nat) 0 "") r ≠ [OutLine usage_hint] ∧
  output_of (_exec_cmd decimal (0%nat, 0%nat) 0 "show") r ≠ [OutLine usage_hint].
Proof.
  intros r. split; [reflexivity|]. split; [reflexivity|].
  split; [apply exec_cmd_empty|].
  split; [by apply (exec_cmd_show decimal _ _ "show" [])|].
  split.
  - unfold output_of. by rewrite exec_cmd_empty.
  - unfold output_of.
    rewrite (exec_cmd_show decimal _ _ "show" []) by reflexivity. simpl.
    by intros [= ].
Qed.

(** An [add] whose weight is no number: [add B ten] raises [ValueError]. *)
Lemma exec_cmd_add_not_an_integer :
  let r := new_router "A" 5 in
  _exec_cmd decimal (0%nat, 0%nat) 0 "add B ten" r = (Raise ValueError, r, []).
Proof.
  intros r. by apply (exec_cmd_add_bad_weight decimal _ _ _ "B" "ten").
Qed.

(** * Further properties of the routing table *)

Section RoutingTableMore.
Import RoutingTable.
Implicit Types (routes : gmap string (Z * gset string)) (vector : gmap string Z).
Implicit Types (nbr dst h : string) (hops : gset string).

Lemma not_elem_of_remove h hops : h ∉ hops ∖ {[ h ]}.
Proof. rewrite elem_of_difference, elem_of_singleton. tauto. Qed.

Lemma remove_absent h hops : h ∉ hops → hops ∖ {[ h ]} = hops.
Proof.
  intros Hh. apply set_eq. intros x.
  rewrite elem_of_difference, elem_of_singleton. split; [tauto|].
  intros Hx. split; [done|]. by intros ->.
Qed.

Lemma purge_entry_absent h (e : Z * gset string) :
  h ∉ e.2 → purge_entry h e = Some e.
Proof. intros Hh. unfold purge_entry. by rewrite bool_decide_false. Qed.

Lemma purge_entry_Some h (e e' : Z * gset string) :
  purge_entry h e = Some e' →
  e'.1 = e.1 ∧ e'.2 = e.2 ∖ {[ h ]} ∧ h ∉ e'.2.
Proof.
  unfold purge_entry, drop_hop. repeat case_bool_decide; try done.
  - intros [= <-]. simpl. split; [done|]. split; [done|].
    apply not_elem_of_remove.
  - intros [= <-]. split; [done|]. split; [|done].
    by rewrite remove_absent.
Qed.

(** X1: what [purge_hop] does to each route.  A route that survives has
    its cost unchanged and its hop set without [h]; a route that did not
    go through [h] is kept as it is; a route whose only hop was [h] is
    deleted. *)
Theorem purge_hop_spec h routes :
  (∀ dst cost hops, purge_hop h routes !! dst = Some (cost, hops) →
     (h ∉ hops) ∧
     (∃ hops0, routes !! dst = Some (cost, hops0) ∧ hops = hops0 ∖ {[ h ]})) ∧
  (∀ dst cost hops, routes !! dst = Some (cost, hops) → h ∉ hops →
     purge_hop h routes !! dst = Some (cost, hops)) ∧
  (∀ dst cost, routes !! dst = Some (cost, {[ h ]}) →
     purge_hop h routes !! dst = None) ∧
  (∀ dst, routes !! dst = None → purge_hop h routes !! dst = None).
Proof.
  split; [|split; [|split]].
  - intros dst cost hops. rewrite purge_hop_lookup.
    destruct (routes !! dst) as [[c H]|]; [|done]. simpl.
    intros (Hc & HH & Hh)%purge_entry_Some. simpl in *. subst.
    split; [done|]. by exists H.
  - intros dst cost hops Hr Hh. rewrite purge_hop_lookup, Hr. simpl.
    by apply purge_entry_absent.
  - intros dst cost Hr. rewrite purge_hop_lookup, Hr. simpl.
    unfold purge_entry, drop_hop. simpl.
    rewrite bool_decide_true by (by apply elem_of_singleton).
    rewrite bool_decide_true; [done|]. apply set_eq. intros x.
    rewrite elem_of_difference, elem_of_singleton, elem_of_empty. tauto.
  - intros dst Hr. by rewrite purge_hop_lookup, Hr.
Qed.

(** X2: purging the same hop a second time changes nothing. *)
Theorem purge_hop_idempotent h routes :
  purge_hop h (purge_hop h routes) = purge_hop h routes.
Proof.
  apply map_eq. intros dst.
  rewrite (purge_hop_lookup h (purge_hop h routes)).
  destruct (purge_hop h routes !! dst) as [e'|] eqn:Hone; [|done]. simpl.
  rewrite purge_hop_lookup in Hone.
  destruct (routes !! dst) as [e|]; [|done]. simpl in Hone.
  apply purge_entry_Some in Hone as (_ & _ & Hh).
  by apply purge_entry_absent.
Qed.

Lemma purge_entry_closed h c H :
  purge_entry h (c, H) =
    if decide (h ∈ H ∧ H ∖ {[ h ]} = ∅) then None else Some (c, H ∖ {[ h ]}).
Proof.
  unfold purge_entry, drop_hop. simpl.
  case_bool_decide as Hh.
  - case_bool_decide as He.
    + by rewrite decide_True.
    + rewrite decide_False; [done|]. by intros [_ ?].
  - rewrite decide_False by (by intros [? _]). by rewrite remove_absent.
Qed.

#[local] Set Warnings "-clear-no-such-hyp".

Lemma purge_entry_comm a b (e : Z * gset string) :
  purge_entry a e ≫= purge_entry b = purge_entry b e ≫= purge_entry a.
Proof.
  destruct e as [c H]. rewrite !purge_entry_closed.
  assert (H ∖ {[ a ]} ∖ {[ b ]} = H ∖ {[ b ]} ∖ {[ a ]}) as Hswap.
  { apply set_eq. intros x. rewrite !elem_of_difference. tauto. }
  repeat case_decide; simpl; rewrite ?purge_entry_closed, ?Hswap;
    repeat case_decide; try done; exfalso;
    repeat match goal with
           | H : _ ∧ _ |- _ => destruct H
           | H : ¬ (_ ∧ _) |- _ => apply not_and_l in H
           | H : _ ∨ _ |- _ => destruct H
           end;
    set_solver.
Qed.

#[local] Set Warnings "clear-no-such-hyp".

(** X3: purging two hops gives the same table in either order. *)
Theorem purge_hop_comm a b routes :
  purge_hop a (purge_hop b routes) = purge_hop b (purge_hop a routes).
Proof.
  apply map_eq. intros dst. rewrite !purge_hop_lookup.
  destruct (routes !! dst) as [e|]; [|done]. simpl.
  symmetry. apply purge_entry_comm.
Qed.

(** X4: [next_hop] answers [None] when there is no route, a member of the
    route's hop set when there is one, and raises [IndexError] on a route
    whose hop set is empty. *)
Theorem next_hop_spec draw routes dst :
  match routes !! dst with
  | None => next_hop draw routes dst = Return None
  | Some (cost, hops) =>
      if decide (hops = ∅) then next_hop draw routes dst = Raise IndexError
      else ∃ h, h ∈ hops ∧ next_hop draw routes dst = Return (Some h)
  end.
Proof.
  unfold next_hop. destruct (routes !! dst) as [[cost hops]|]; [|done].
  case_decide as Hhops.
  - subst hops. by rewrite elements_empty.
  - destruct (choice_elem draw hops Hhops) as (h & -> & Hin). by exists h.
Qed.

(** X5: after [add_direct ip w] the distance to [ip] is [w], the vector
    exported to [ip] itself has no entry for [ip], and the vector exported
    to any other neighbor lists [ip] at cost [w]. *)
Theorem add_direct_export ip w routes :
  distance (add_direct ip w routes) ip = Some w ∧
  export (add_direct ip w routes) ip !! ip = None ∧
  (∀ N, N ≠ ip → export (add_direct ip w routes) N !! ip = Some w).
Proof.
  unfold distance, add_direct. rewrite lookup_insert_eq.
  split; [done|]. split.
  - rewrite export_lookup, lookup_insert_eq. simpl. unfold export_entry. simpl.
    rewrite bool_decide_false; [done|].
    intros Hnot. apply Hnot. by apply elem_of_singleton.
  - intros N HN. rewrite export_lookup, lookup_insert_eq. simpl.
    unfold export_entry. simpl.
    rewrite bool_decide_true; [done|]. by rewrite elem_of_singleton.
Qed.

(** X6: adding a direct route to [ip] and then purging the hop [ip] leaves
    no route to [ip], and leaves every other destination as purging alone
    would. *)
Theorem purge_hop_add_direct ip w routes :
  purge_hop ip (add_direct ip w routes) = delete ip (purge_hop ip routes).
Proof.
  apply map_eq. intros dst. rewrite purge_hop_lookup. unfold add_direct.
  destruct (decide (dst = ip)) as [->|Hne].
  - rewrite lookup_insert_eq, lookup_delete_eq. simpl.
    rewrite purge_entry_closed. rewrite decide_True; [done|].
    split; [by apply elem_of_singleton|].
    apply set_eq. intros x.
    rewrite elem_of_difference, elem_of_singleton, elem_of_empty. tauto.
  - rewrite lookup_insert_ne, lookup_delete_ne by done.
    by rewrite purge_hop_lookup.
Qed.

(** X7: a third identical advertisement changes nothing: whatever the
    first call withdrew, the second has put back, and from then on the
    table is stable. *)
Theorem learn_neighbor_vector_thrice nbr w_nbr vector routes :
  let once := learn_neighbor_vector nbr w_nbr vector routes in
  let twice := learn_neighbor_vector nbr w_nbr vector once in
  learn_neighbor_vector nbr w_nbr vector twice = twice.
Proof.
  intros once twice. apply map_eq. intros dst.
  rewrite (learn_neighbor_vector_lookup _ _ _ twice).
  destruct (vector !! dst) as [d|] eqn:Hd; [|done].
  destruct (twice !! dst) as [e2|] eqn:Htwice.
  - unfold twice in Htwice.
    rewrite learn_neighbor_vector_lookup, Hd in Htwice.
    by apply learn_entry_twice in Htwice.
  - exfalso. unfold twice in Htwice.
    rewrite learn_neighbor_vector_lookup, Hd in Htwice.
    destruct (once !! dst) as [e1|] eqn:Honce.
    + unfold once in Honce.
      rewrite learn_neighbor_vector_lookup, Hd in Honce.
      apply learn_entry_twice in Honce. by rewrite Honce in Htwice.
    + by rewrite learn_entry_cases in Htwice.
Qed.

(** X8: after a call, every advertised destination that has a route costs
    at most what the neighbor offers ([w_nbr + d]), and the neighbor is one
    of its hops exactly when the cost equals that offer. *)
Theorem learn_neighbor_vector_offer nbr w_nbr vector routes dst d cost hops :
  vector !! dst = Some d →
  learn_neighbor_vector nbr w_nbr vector routes !! dst = Some (cost, hops) →
  cost ≤ w_nbr + d ∧ (nbr ∈ hops ↔ cost = w_nbr + d).
Proof.
  intros Hd. rewrite learn_neighbor_vector_lookup, Hd, learn_entry_cases.
  destruct (routes !! dst) as [[c H]|].
  - unfold drop_hop. simpl. repeat case_decide; try case_bool_decide;
      try done; intros [= <- <-].
    + split; [lia|]. split; [done|]. intros _. by apply elem_of_singleton.
    + split; [lia|]. split; [done|]. intros _.
      apply elem_of_union. right. by apply elem_of_singleton.
    + split; [lia|]. split; [|lia].
      intros Hin. by apply not_elem_of_remove in Hin.
    + split; [lia|]. split; [done|lia].
  - intros [= <- <-]. split; [lia|]. split; [done|].
    intros _. by apply elem_of_singleton.
Qed.

(** [B], a link of weight 1, offers [X] at distance 3 to node [A], whose
    route to [X] costs 5 through [C]. *)
Lemma learn_neighbor_vector_offer_witness :
  let routes : gmap string (Z * gset string) :=
    <["X" := (5, {[ "C" ]})]> (init "A") in
  let vector : gmap string Z := {[ "X" := 3 ]} in
  vector !! "X" = Some 3 ∧
  learn_neighbor_vector "B" 1 vector routes !! "X" = Some (4, {[ "B" ]}) ∧
  4 ≤ 1 + 3 ∧ ("B" ∈ ({[ "B" ]} : gset string) ↔ 4 = 1 + 3).
Proof.
  intros routes vector.
  assert (vector !! "X" = Some 3) as Hd by reflexivity.
  assert (learn_neighbor_vector "B" 1 vector routes !! "X"
            = Some (4, {[ "B" ]})) as Hafter by (vm_compute; reflexivity).
  split; [exact Hd|]. split; [exact Hafter|].
  exact (learn_neighbor_vector_offer "B" 1 vector routes "X" 3 4 {[ "B" ]}
           Hd Hafter).
Defined.

(** Where the hops of a route come from, after purging and learning. *)
Lemma purge_hop_origin h routes dst cost hops :
  purge_hop h routes !! dst = Some (cost, hops) →
  ∃ hops0, routes !! dst = Some (cost, hops0) ∧ hops ⊆ hops0 ∧ h ∉ hops.
Proof.
  rewrite purge_hop_lookup. destruct (routes !! dst) as [[c H]|]; [|done].
  simpl. intros (Hc & HH & Hh)%purge_entry_Some. simpl in *. subst.
  exists H. split; [done|]. split; [|done].
  intros x [Hx _]%elem_of_difference. done.
Qed.

Lemma purge_all_origin (dead : list string) routes dst cost hops :
  foldl (λ acc ip, purge_hop ip acc) routes dead !! dst = Some (cost, hops) →
  ∃ hops0, routes !! dst = Some (cost, hops0) ∧ hops ⊆ hops0 ∧
           ∀ d, d ∈ dead → d ∉ hops.
Proof.
  revert routes. induction dead as [|d0 dead IH]; intros routes Hr.
  - exists hops. split; [done|]. split; [done|].
    intros d Hd. by apply elem_of_nil in Hd.
  - cbn [foldl] in Hr. apply IH in Hr as (hops1 & Hr1 & Hsub1 & Hdead).
    apply purge_hop_origin in Hr1 as (hops0 & Hr0 & Hsub0 & Hd0).
    exists hops0. split; [done|]. split; [by etrans|].
    intros d [->|Hd]%elem_of_cons; [|by apply Hdead].
    intros Hin. by apply Hd0, Hsub1.
Qed.

Lemma learn_neighbor_vector_origin nbr w_nbr vector routes dst cost hops h :
  learn_neighbor_vector nbr w_nbr vector routes !! dst = Some (cost, hops) →
  h ∈ hops →
  h = nbr ∨ ∃ cost0 hops0, routes !! dst = Some (cost0, hops0) ∧ h ∈ hops0.
Proof.
  rewrite learn_neighbor_vector_lookup.
  destruct (vector !! dst) as [d|]; [|by eauto].
  rewrite learn_entry_cases.
  destruct (routes !! dst) as [[c H]|].
  - unfold drop_hop. simpl. repeat case_decide; try case_bool_decide;
      try done; intros [= <- <-].
    + intros Hin. apply elem_of_singleton in Hin. by left.
    + intros [Hin|Hin]%elem_of_union.
      * right. eauto.
      * apply elem_of_singleton in Hin. by left.
    + intros [Hin _]%elem_of_difference. right. eauto.
    + intros Hin. right. eauto.
  - intros [= <- <-] Hin. apply elem_of_singleton in Hin. by left.
Qed.

Lemma next_hop_single draw routes dst cost h :
  routes !! dst = Some (cost, {[ h ]}) →
  next_hop draw routes dst = Return (Some h).
Proof.
  intros Hr. unfold next_hop, choice. rewrite Hr, elements_singleton.
  change (length [h]) with 1%nat. by rewrite Nat.mod_1_r.
Qed.

End RoutingTableMore.

(** * Further properties of the link table *)

Section LinkTableFacts.
Implicit Types (lt : LinkTable.t) (ip : string).

Lemma remove_all_lookup (dead : list string) lt ip :
  LinkTable.nbrs (foldl (λ acc ip, LinkTable.remove ip acc) lt dead) !! ip =
    if decide (ip ∈ dead) then None else LinkTable.nbrs lt !! ip.
Proof.
  revert lt. induction dead as [|d dead IH]; intros lt.
  - done.
  - cbn [foldl]. rewrite IH.
    destruct (decide (ip ∈ dead)) as [Hin|Hnin];
      destruct (decide (ip ∈ d :: dead)) as [Hin'|Hnin']; try done.
    + exfalso. apply Hnin'. apply elem_of_cons. by right.
    + apply elem_of_cons in Hin' as [->|?]; [|done]. apply lookup_delete_eq.
    + apply lookup_delete_ne. intros ->. apply Hnin'. apply elem_of_cons. by left.
Qed.

Lemma remove_all_aging (dead : list string) lt :
  LinkTable.aging (foldl (λ acc ip, LinkTable.remove ip acc) lt dead) =
    LinkTable.aging lt.
Proof.
  revert lt. induction dead as [|d dead IH]; intros lt; [done|].
  cbn [foldl]. by rewrite IH.
Qed.

Lemma expire_dead_elem now lt ip :
  ip ∈ (LinkTable.expire now lt).1 ↔
    ∃ n, LinkTable.nbrs lt !! ip = Some n ∧
         now - Neighbor.last_seen n > LinkTable.aging lt.
Proof.
  unfold LinkTable.expire. simpl. rewrite list_elem_of_fmap. split.
  - intros ([ip' n] & -> & Hin). simpl.
    apply list_elem_of_filter in Hin as [Hdead Hin].
    apply elem_of_map_to_list in Hin. exists n. split; [done|].
    unfold LinkTable.is_dead in Hdead. simpl in Hdead. lia.
  - intros (n & Hn & Hold). exists (ip, n). split; [done|].
    apply list_elem_of_filter. split.
    + unfold LinkTable.is_dead. simpl. lia.
    + by apply elem_of_map_to_list.
Qed.

Lemma expire_dead_NoDup now lt : NoDup (LinkTable.expire now lt).1.
Proof.
  unfold LinkTable.expire. simpl.
  apply (sublist_NoDup _ (map_to_list (LinkTable.nbrs lt)).*1);
    [apply NoDup_fst_map_to_list|].
  apply fmap_sublist, sublist_filter.
Qed.

(** X9: [expire] returns, without repetition, exactly the neighbors whose
    last update is older than the aging time, removes exactly those from
    the table, and leaves every other entry (and the aging time) as it
    was. *)
Theorem expire_spec now lt :
  let dead := (LinkTable.expire now lt).1 in
  let lt' := (LinkTable.expire now lt).2 in
  NoDup dead ∧
  (∀ ip, ip ∈ dead ↔
     ∃ n, LinkTable.nbrs lt !! ip = Some n ∧
          now - Neighbor.last_seen n > LinkTable.aging lt) ∧
  (∀ ip, LinkTable.nbrs lt' !! ip =
     if decide (ip ∈ dead) then None else LinkTable.nbrs lt !! ip) ∧
  LinkTable.aging lt' = LinkTable.aging lt.
Proof.
  intros dead lt'. split; [apply expire_dead_NoDup|].
  split; [apply expire_dead_elem|]. split.
  - intros ip. apply remove_all_lookup.
  - apply remove_all_aging.
Qed.

Lemma touch_lookup now ip lt k :
  LinkTable.nbrs (LinkTable.touch now ip lt) !! k =
    if decide (k = ip) then
      (λ n, Neighbor.mk (Neighbor.weight n) now) <$> LinkTable.nbrs lt !! ip
    else LinkTable.nbrs lt !! k.
Proof.
  unfold LinkTable.touch.
  destruct (LinkTable.nbrs lt !! ip) as [n|] eqn:Hip; simpl.
  - rewrite lookup_insert. case_decide; case_decide; by simplify_eq.
  - case_decide; by simplify_eq.
Qed.

Lemma neighbors_elem lt k :
  k ∈ LinkTable.neighbors lt ↔ is_Some (LinkTable.nbrs lt !! k).
Proof.
  unfold LinkTable.neighbors. rewrite list_elem_of_fmap. split.
  - intros ([k' n] & -> & Hin). apply elem_of_map_to_list in Hin. by exists n.
  - intros [n Hn]. exists (k, n). split; [done|]. by apply elem_of_map_to_list.
Qed.

(** X10: the keep-alive window.  A neighbor added or heard from at time
    [now] is not expired by a tick at time [now'] as long as
    [now' - now] does not exceed the aging time; once it does, the added
    neighbor is expired, and so is the touched one if it was a neighbor. *)
Theorem keep_alive now now' ip w lt :
  (now' - now ≤ LinkTable.aging lt →
     (ip ∉ (LinkTable.expire now' (LinkTable.add now ip w lt)).1) ∧
     (ip ∉ (LinkTable.expire now' (LinkTable.touch now ip lt)).1)) ∧
  (now' - now > LinkTable.aging lt →
     ip ∈ (LinkTable.expire now' (LinkTable.add now ip w lt)).1 ∧
     (is_Some (LinkTable.nbrs lt !! ip) →
      ip ∈ (LinkTable.expire now' (LinkTable.touch now ip lt)).1)).
Proof.
  assert (LinkTable.aging (LinkTable.touch now ip lt) = LinkTable.aging lt)
    as Haging.
  { unfold LinkTable.touch. by destruct (LinkTable.nbrs lt !! ip). }
  split.
  - intros Hfresh. split.
    + intros (n & Hn & Hold)%expire_dead_elem. simpl in Hn, Hold.
      rewrite lookup_insert_eq in Hn. injection Hn as <-. simpl in Hold. lia.
    + intros (n & Hn & Hold)%expire_dead_elem.
      rewrite touch_lookup, decide_True in Hn by done. rewrite Haging in Hold.
      destruct (LinkTable.nbrs lt !! ip); [|done].
      injection Hn as <-. simpl in Hold. lia.
  - intros Hstale. split.
    + apply expire_dead_elem. exists (Neighbor.mk w now). simpl.
      rewrite lookup_insert_eq. split; [done|lia].
    + intros [n Hn]. apply expire_dead_elem.
      exists (Neighbor.mk (Neighbor.weight n) now).
      rewrite touch_lookup, decide_True, Hn, Haging by done. simpl.
      split; [done|lia].
Qed.

(** X11: [touch] changes no weight and neither adds nor removes a
    neighbor, whether or not the touched address is a neighbor. *)
Theorem touch_frame now ip lt :
  (∀ k, LinkTable.weight (LinkTable.touch now ip lt) k = LinkTable.weight lt k) ∧
  (∀ k, k ∈ LinkTable.neighbors (LinkTable.touch now ip lt) ↔
        k ∈ LinkTable.neighbors lt).
Proof.
  split.
  - intros k. unfold LinkTable.weight. rewrite touch_lookup.
    case_decide; [|done]. subst k.
    by destruct (LinkTable.nbrs lt !! ip).
  - intros k. rewrite !neighbors_elem, touch_lookup.
    case_decide; [|done]. subst k.
    by rewrite fmap_is_Some.
Qed.

(** X12: looking a weight up after [add] and [remove]; removing an absent
    address changes nothing, and removing an address just added to a table
    that did not have it gives that table back. *)
Theorem link_table_add_remove now ip w lt :
  (∀ k, LinkTable.weight (LinkTable.add now ip w lt) k =
        if decide (k = ip) then Some w else LinkTable.weight lt k) ∧
  (∀ k, LinkTable.weight (LinkTable.remove ip lt) k =
        if decide (k = ip) then None else LinkTable.weight lt k) ∧
  (LinkTable.nbrs lt !! ip = None →
     LinkTable.remove ip lt = lt ∧
     LinkTable.remove ip (LinkTable.add now ip w lt) = lt).
Proof.
  split; [|split].
  - intros k. unfold LinkTable.weight, LinkTable.add. simpl.
    rewrite lookup_insert. case_decide; case_decide; by simplify_eq.
  - intros k. unfold LinkTable.weight, LinkTable.remove. simpl.
    rewrite lookup_delete. case_decide; case_decide; by simplify_eq.
  - intros Hnone. destruct lt as [nbrs aging]. simpl in Hnone.
    unfold LinkTable.remove, LinkTable.add. simpl. split; f_equal.
    + by apply delete_id.
    + rewrite delete_insert_eq. by apply delete_id.
Qed.

End LinkTableFacts.

(** * Further properties of the router *)

Section RouterMore.
Variable json_dumps : Msg → string.
Variable int : string → option Z.

Implicit Types (r : Router) (m msg : Msg) (draws : nat * nat).

(** ** What the commands do *)

Lemma exec_cmd_add draws now cmd ip ws w r :
  split cmd = ["add"; ip; ws] → int ws = Some w →
  _exec_cmd int draws now cmd r =
    (Return tt,
     mkRouter (my_ip r) (LinkTable.add now ip w (links r))
              (RoutingTable.add_direct ip w (rt r)) (running r),
     [OutLinkAdded ip w]).
Proof.
  intros Hparts Hint. unfold _exec_cmd.
  rewrite bool_decide_false by (by intros ->).
  rewrite Hparts. unfold bind, lift, get, emit, parse_int, set_links, set_rt.
  simpl. by rewrite Hint.
Qed.

Lemma exec_cmd_del draws now cmd ip r :
  split cmd = ["del"; ip] →
  _exec_cmd int draws now cmd r =
    (Return tt,
     mkRouter (my_ip r) (LinkTable.remove ip (links r))
              (RoutingTable.purge_hop ip (rt r)) (running r),
     [OutLine ("- link " +:+ ip)]).
Proof.
  intros Hparts. unfold _exec_cmd.
  rewrite bool_decide_false by (by intros ->).
  rewrite Hparts. unfold bind, lift, get, emit, set_links, set_rt.
  simpl. done.
Qed.

Lemma exec_cmd_trace draws now cmd dst r :
  split cmd = ["trace"; dst] →
  _exec_cmd int draws now cmd r =
    _forward_or_notify draws (Trace (my_ip r) dst [my_ip r]) r.
Proof.
  intros Hparts. unfold _exec_cmd.
  rewrite bool_decide_false by (by intros ->).
  rewrite Hparts. unfold bind at 1, lift at 1, get. simpl.
  exact (M_eta (_forward_or_notify draws (Trace (my_ip r) dst [my_ip r]) r)).
Qed.

Lemma dispatch_update_unknown draws now msg src_ip r :
  LinkTable.nbrs (links r) !! src_ip = None → msg_type msg = "update" →
  _dispatch json_dumps draws now msg src_ip r = (Return tt, r, []).
Proof.
  intros Hnone Htype. unfold _dispatch. rewrite Htype. simpl.
  unfold _handle_update, bind, get, set_links, LinkTable.touch, LinkTable.weight.
  simpl. rewrite Hnone. simpl. rewrite Hnone. simpl. by rewrite router_eta.
Qed.

(** ** Which steps change the router *)

(** X13: only updates change the router: dispatching any message of
    another type leaves the router (both tables included) as it was, and a
    message of a type other than the four known ones is dropped without
    any output or exception. *)
Theorem dispatch_only_updates_mutate draws now msg src_ip r :
  msg_type msg ≠ "update" →
  state_after (_dispatch json_dumps draws now msg src_ip) r = r ∧
  (msg_type msg ≠ "data" → msg_type msg ≠ "trace" →
   msg_type msg ≠ "control" →
   _dispatch json_dumps draws now msg src_ip r = (Return tt, r, [])).
Proof.
  intros Hupdate. split.
  - unfold _dispatch. rewrite bool_decide_false by done.
    repeat case_bool_decide.
    + unfold _handle_data, state_after, bind at 1, get. simpl.
      case_bool_decide.
      * unfold bind, lift, emit. simpl. by destruct (msg_payload msg).
      * exact (forward_or_notify_state draws msg r).
    + unfold _handle_trace, state_after, bind at 1, get. simpl.
      unfold bind at 1, lift at 1.
      destruct (append_router msg (my_ip r)) as [msg'|]; simpl; [|done].
      case_bool_decide; [done|].
      exact (forward_or_notify_state draws msg' r).
    + unfold _handle_control, state_after, bind at 1, get. simpl.
      case_bool_decide.
      * unfold bind, lift, emit. simpl.
        destruct (msg_reason msg); simpl; [|done].
        by destruct (msg_original msg).
      * exact (forward_or_notify_state draws msg r).
    + done.
  - intros Hdata Htrace Hcontrol. unfold _dispatch.
    by rewrite !bool_decide_false.
Qed.

(** X14: a command whose first word is neither [add] nor [del] (an empty
    or blank line included) changes neither the link table nor the routing
    table, nor the node's address, whatever it prints, sends or raises. *)
Theorem exec_cmd_frame draws now cmd r :
  split cmd !! 0%nat ≠ Some "add" → split cmd !! 0%nat ≠ Some "del" →
  links (state_after (_exec_cmd int draws now cmd) r) = links r ∧
  rt (state_after (_exec_cmd int draws now cmd) r) = rt r ∧
  my_ip (state_after (_exec_cmd int draws now cmd) r) = my_ip r.
Proof.
  intros Hadd Hdel.
  assert (∃ b, state_after (_exec_cmd int draws now cmd) r =
               mkRouter (my_ip r) (links r) (rt r) b) as [b ->]; [|done].
  unfold _exec_cmd.
  case_bool_decide; [exists (running r); by rewrite router_eta|].
  unfold state_after, bind at 1. unfold lift at 1, index at 1.
  destruct (split cmd !! 0%nat) as [p0|] eqn:Hp0; simpl;
    [|exists (running r); by rewrite router_eta].
  rewrite (bool_decide_false (p0 = "add")) by congruence.
  rewrite (bool_decide_false (p0 = "del")) by congruence. simpl.
  repeat case_match; simpl;
    try (exists (running r); by rewrite router_eta); [|by exists false].
  unfold bind at 1. unfold lift at 1.
  destruct (index (split cmd) 1) as [dst|]; simpl;
    [|exists (running r); by rewrite router_eta].
  exists (running r). rewrite router_eta.
  exact (forward_or_notify_state draws (mk_trace (my_ip r) dst [my_ip r]) r).
Qed.

(** ** Sequences of commands and messages *)


(** X16: after the command [del ip] the address [ip] has no weight, no
    route goes through [ip], and an update that then arrives from [ip] is
    dropped: the router is unchanged and nothing is sent. *)
Theorem del_then_update_dropped draws1 now1 draws2 now2 cmd ip msg r :
  split cmd = ["del"; ip] → msg_type msg = "update" →
  let r1 := state_after (_exec_cmd int draws1 now1 cmd) r in
  LinkTable.weight (links r1) ip = None ∧
  (∀ dst cost hops, rt r1 !! dst = Some (cost, hops) → ip ∉ hops) ∧
  _dispatch json_dumps draws2 now2 msg ip r1 = (Return tt, r1, []).
Proof.
  intros Hdel Htype r1.
  assert (r1 = mkRouter (my_ip r) (LinkTable.remove ip (links r))
                        (RoutingTable.purge_hop ip (rt r)) (running r))
    as Hr1.
  { unfold r1, state_after. by rewrite (exec_cmd_del _ _ _ ip). }
  assert (LinkTable.nbrs (links r1) !! ip = None) as Hnone.
  { rewrite Hr1. simpl. apply lookup_delete_eq. }
  split; [|split].
  - unfold LinkTable.weight. by rewrite Hnone.
  - intros dst cost hops Hroute. rewrite Hr1 in Hroute. simpl in Hroute.
    by apply purge_hop_origin in Hroute as (_ & _ & _ & Hip).
  - by apply dispatch_update_unknown.
Qed.

(** X17: a [trace] command for a destination without a route, on a node
    that still has its initial route to itself, sends the control message
    [(self, self, "unreachable", trace)] to the node's own address. *)
Theorem trace_unreachable draws now cmd dst cost r :
  split cmd = ["trace"; dst] →
  rt r !! dst = None →
  rt r !! my_ip r = Some (cost, {[ my_ip r ]}) →
  my_ip r ≠ "" →
  _exec_cmd int draws now cmd r =
    (Return tt, r,
     [OutSend (Control (my_ip r) (my_ip r) "unreachable"
                       (Trace (my_ip r) dst [my_ip r]))
              (my_ip r)]).
Proof.
  intros Htrace Hdst Hself Hne.
  rewrite (exec_cmd_trace _ _ _ dst) by done.
  unfold _forward_or_notify, bind, get, lift, _send, emit. simpl.
  rewrite (next_hop_absent _ _ _ Hdst). simpl.
  rewrite (next_hop_single _ _ _ _ _ Hself). simpl.
  by rewrite bool_decide_false.
Qed.


(** ** The advertisement tick *)




(** ** Hops are neighbors *)

Lemma move_hops_are_links r r' :
  move r r' → hops_are_links r → hops_are_links r'.
Proof.
  intros Hmove Hinv.
  destruct Hmove as [b|now ip w Hip|ip|now ip|nbr w vector Hw|now];
    intros dst cost hops h; simpl.
  - apply Hinv.
  - unfold RoutingTable.add_direct. rewrite lookup_insert.
    case_decide as Hdst.
    + intros [= <- <-] Hin. apply elem_of_singleton in Hin. subst h.
      right. rewrite lookup_insert_eq. by eexists.
    + intros Hroute Hin.
      destruct (Hinv _ _ _ _ Hroute Hin) as [?|Hlink]; [by left|].
      right. rewrite lookup_insert. by case_decide.
  - intros Hroute Hin.
    apply purge_hop_origin in Hroute as (hops0 & Hr0 & Hsub & Hip).
    destruct (Hinv _ _ _ h Hr0 (Hsub _ Hin)) as [?|Hlink]; [by left|].
    right. rewrite lookup_delete_ne; [done|]. by intros ->.
  - intros Hroute Hin.
    destruct (Hinv _ _ _ _ Hroute Hin) as [?|Hlink]; [by left|].
    right. rewrite touch_lookup. case_decide; [|done].
    subst h. by rewrite fmap_is_Some.
  - intros Hroute Hin.
    destruct (learn_neighbor_vector_origin _ _ _ _ _ _ _ _ Hroute Hin)
      as [->|(cost0 & hops0 & Hr0 & Hin0)].
    + right. by eapply weight_Some_nbrs.
    + by eapply Hinv.
  - intros Hroute Hin.
    apply purge_all_origin in Hroute as (hops0 & Hr0 & Hsub & Hdead).
    destruct (Hinv _ _ _ h Hr0 (Hsub _ Hin)) as [?|Hlink]; [by left|].
    right. rewrite remove_all_lookup. rewrite decide_False; [done|].
    intros Hd. by apply (Hdead h).
Qed.

Lemma rtc_move_hops_are_links r r' :
  rtc move r r' → hops_are_links r → hops_are_links r'.
Proof. induction 1; eauto using move_hops_are_links. Qed.

(** X20: in every state the router reaches, every hop of every route is
    the node's own address or an address of the link table: deleting or
    expiring a link leaves no route through it. *)
Theorem hops_are_neighbors self period r :
  reachable json_dumps int self period r → hops_are_links r.
Proof.
  unfold reachable. revert r.
  apply (rtc_ind_r hops_are_links).
  - intros dst cost hops h. simpl. unfold RoutingTable.init.
    intros [<- [= <- <-]]%lookup_singleton_Some Hin.
    apply elem_of_singleton in Hin. by left.
  - intros r r' _ Hstep Hinv.
    destruct Hstep as [draws now cmd|draws now msg src_ip|now].
    + destruct (exec_cmd_move int draws now cmd r) as [->|Hmove]; [done|].
      by eapply move_hops_are_links.
    + eapply rtc_move_hops_are_links; [apply dispatch_move|done].
    + eapply move_hops_are_links; [apply update_tick_move|done].
Qed.

End RouterMore.

(** ** Concrete instances *)

(** A data message for the node itself. *)
Lemma dispatch_only_updates_mutate_witness :
  let r := new_router "A" 5 in
  let msg := Data "B" "A" "hello" in
  msg_type msg ≠ "update" ∧
  state_after (_dispatch render (0%nat, 0%nat) 3 msg "B") r = r ∧
  (msg_type msg ≠ "data" → msg_type msg ≠ "trace" →
   msg_type msg ≠ "control" →
   _dispatch render (0%nat, 0%nat) 3 msg "B" r = (Return tt, r, [])).
Proof.
  intros r msg.
  assert (msg_type msg ≠ "update") as Htype by discriminate.
  split; [exact Htype|].
  exact (dispatch_only_updates_mutate render (0%nat, 0%nat) 3 msg "B" r Htype).
Defined.

(** The command [trace B] on a node with one link. *)
Lemma exec_cmd_frame_witness :
  let r := state_after (_exec_cmd decimal (0%nat, 0%nat) 0 "add B 10")
                       (new_router "A" 5) in
  let cmd := "trace B" in
  split cmd !! 0%nat ≠ Some "add" ∧ split cmd !! 0%nat ≠ Some "del" ∧
  links (state_after (_exec_cmd decimal (0%nat, 0%nat) 1 cmd) r) = links r ∧
  rt (state_after (_exec_cmd decimal (0%nat, 0%nat) 1 cmd) r) = rt r ∧
  my_ip (state_after (_exec_cmd decimal (0%nat, 0%nat) 1 cmd) r) = my_ip r.
Proof.
  intros r cmd.
  assert (split cmd !! 0%nat ≠ Some "add") as Hadd by (vm_compute; discriminate).
  assert (split cmd !! 0%nat ≠ Some "del") as Hdel by (vm_compute; discriminate).
  split; [exact Hadd|]. split; [exact Hdel|].
  exact (exec_cmd_frame decimal (0%nat, 0%nat) 1 cmd r Hadd Hdel).
Defined.


(** The operator of node [A] deletes the link [B]; [B] still advertises. *)
Lemma del_then_update_dropped_witness :
  let r := state_after (_exec_cmd decimal (0%nat, 0%nat) 0 "add B 10")
                       (new_router "A" 5) in
  let r1 := state_after (_exec_cmd decimal (0%nat, 0%nat) 1 "del B") r in
  let msg := Update "B" "A" {[ "X" := 3 ]} in
  split "del B" = ["del"; "B"] ∧ msg_type msg = "update" ∧
  LinkTable.weight (links r1) "B" = None ∧
  (∀ dst cost hops, rt r1 !! dst = Some (cost, hops) → "B" ∉ hops) ∧
  _dispatch render (0%nat, 0%nat) 2 msg "B" r1 = (Return tt, r1, []).
Proof.
  intros r r1 msg.
  assert (split "del B" = ["del"; "B"]) as Hdel by reflexivity.
  assert (msg_type msg = "update") as Htype by reflexivity.
  split; [exact Hdel|]. split; [exact Htype|].
  exact (del_then_update_dropped render decimal (0%nat, 0%nat) 1
           (0%nat, 0%nat) 2 "del B" "B" msg r Hdel Htype).
Defined.

(** A fresh node [A] traces the unknown address [B]. *)
Lemma trace_unreachable_witness :
  let r := new_router "A" 5 in
  split "trace B" = ["trace"; "B"] ∧ rt r !! "B" = None ∧
  rt r !! my_ip r = Some (0, {[ my_ip r ]}) ∧ my_ip r ≠ "" ∧
  _exec_cmd decimal (0%nat, 0%nat) 0 "trace B" r =
    (Return tt, r,
     [OutSend (Control (my_ip r) (my_ip r) "unreachable"
                       (Trace (my_ip r) "B" [my_ip r]))
              (my_ip r)]).
Proof.
  intros r.
  assert (split "trace B" = ["trace"; "B"]) as Htrace by reflexivity.
  assert (rt r !! "B" = None) as Hdst by reflexivity.
  assert (rt r !! my_ip r = Some (0, {[ my_ip r ]})) as Hself by reflexivity.
  assert (my_ip r ≠ "") as Hne by discriminate.
  split; [exact Htrace|]. split; [exact Hdst|]. split; [exact Hself|].
  split; [exact Hne|].
  exact (trace_unreachable decimal (0%nat, 0%nat) 0 "trace B" "B" 0 r
           Htrace Hdst Hself Hne).
Defined.


(** Node [A] after the command [add B 10]. *)
Lemma hops_are_neighbors_witness :
  let r := state_after (_exec_cmd decimal (0%nat, 0%nat) 0 "add B 10")
                       (new_router "A" 5) in
  reachable render decimal "A" 5 r ∧ hops_are_links r.
Proof.
  intros r.
  assert (reachable render decimal "A" 5 r) as Hreach
    by (apply rtc_once, step_cmd).
  split; [exact Hreach|].
  exact (hops_are_neighbors render decimal "A" 5 r Hreach).
Defined.

(** ** [split] on Unicode white space *)

(** Every white-space character, in UTF-8, is recognised at the head of a
    string, with its length in bytes. *)
Lemma space_prefix_whitespace cp rest :
  cp ∈ whitespace → space_prefix (utf8 cp +:+ rest) = String.length (utf8 cp).
Proof.
  unfold whitespace. intros Hin.
  repeat (apply elem_of_cons in Hin as [->|Hin]; [by destruct rest|]).
  by apply elem_of_nil in Hin.
Qed.

(** Words separated by U+00A0, U+2003, U+0085 and U+3000. *)
Lemma split_unicode_whitespace :
  split ("add" +:+ utf8 0xA0 +:+ "B" +:+ utf8 0x2003 +:+ utf8 0x85 +:+ "10"
         +:+ utf8 0x3000) = ["add"; "B"; "10"].
Proof. reflexivity. Qed.

(** U+00E0 (a with grave accent) is the bytes C3 A0: the byte A0 inside it
    is no separator. *)
Lemma split_keeps_letters :
  split ("add" +:+ utf8 0xE0 +:+ "B") = ["add" +:+ utf8 0xE0 +:+ "B"].
Proof. reflexivity. Qed.

(** The command [add B 10] typed with no-break spaces adds the link. *)
Lemma exec_cmd_add_no_break_space :
  let r := new_router "A" 5 in
  let cmd := "add" +:+ utf8 0xA0 +:+ "B" +:+ utf8 0xA0 +:+ "10" in
  _exec_cmd decimal (0%nat, 0%nat) 0 cmd r =
    (Return tt,
     mkRouter "A" (LinkTable.add 0 "B" 10 (links r))
              (RoutingTable.add_direct "B" 10 (rt r)) true,
     [OutLinkAdded "B" 10]).
Proof.
  intros r cmd. by apply (exec_cmd_add decimal _ _ _ "B" "10" 10).
Qed.
